(** * TypeManager: registry and layout engine (src/TypeManager/src)

    Shallow embedding of [utils/mod.rs] and [type_system/mod.rs].

    - [usize] values are [N]; every [+], [-], [*] and [pow] of the source
      goes through the [usize_*] operations below, which follow Rust:
      with overflow checks (the [dev] profile, used by [cargo run] and
      [cargo test]) an overflow panics, without them (the [release]
      profile) it wraps modulo 2^64. Division and remainder by zero panic
      in both profiles.
    - Computations are in the [outcome] monad: [Ret v], [Panic] (a Rust
      panic: [unwrap] on [None], index out of bounds, [% 0], overflow with
      checks) or [OutOfFuel]. Recursion through the registry (by member
      name) is bounded by a fuel argument; [OutOfFuel] is never a Rust
      behaviour, it only means that the fuel given was too small. *)

From stdpp Require Import base gmap strings list.

(* ------------------------------------------------------------------ *)
(** ** Outcomes and usize arithmetic *)

Inductive outcome (A : Type) : Type :=
  | Ret (a : A)
  | Panic
  | OutOfFuel.
Arguments Ret {A} a.
Arguments Panic {A}.
Arguments OutOfFuel {A}.

Definition bind {A B} (m : outcome A) (k : A -> outcome B) : outcome B :=
  match m with
  | Ret a => k a
  | Panic => Panic
  | OutOfFuel => OutOfFuel
  end.

Notation "x <- m ;; k" := (bind m (fun x => k))
  (at level 100, m at next level, right associativity).

(** A Rust [for] loop over a list that threads an accumulator. *)
Fixpoint foldM {A B} (f : B -> A -> outcome B) (l : list A) (acc : B) : outcome B :=
  match l with
  | [] => Ret acc
  | x :: l' => bind (f acc x) (foldM f l')
  end.

(** Cargo build profile: [Dev] has overflow checks, [Release] wraps. *)
Inductive Profile := Dev | Release.

Definition usize_max : N := 2 ^ 64 - 1.
Definition wrap (x : N) : N := x `mod` 2 ^ 64.

Definition overflow (prof : Profile) (v : N) : outcome N :=
  match prof with
  | Dev => Panic
  | Release => Ret (wrap v)
  end.

Definition usize_add (prof : Profile) (a b : N) : outcome N :=
  if (a + b <=? usize_max)%N then Ret (a + b)%N else overflow prof (a + b)%N.

Definition usize_sub (prof : Profile) (a b : N) : outcome N :=
  if (b <=? a)%N then Ret (a - b)%N else overflow prof (a + 2 ^ 64 - b)%N.

Definition usize_mul (prof : Profile) (a b : N) : outcome N :=
  if (a * b <=? usize_max)%N then Ret (a * b)%N else overflow prof (a * b)%N.

Definition usize_pow (prof : Profile) (a e : N) : outcome N :=
  if (a ^ e <=? usize_max)%N then Ret (a ^ e)%N else overflow prof (a ^ e)%N.

Definition usize_div (a b : N) : outcome N :=
  if (b =? 0)%N then Panic else Ret (a / b)%N.

Definition usize_rem (a b : N) : outcome N :=
  if (b =? 0)%N then Panic else Ret (a `mod` b)%N.

(** The Rust range [l..e]: [l, l+1, ..., e-1], empty when [e <= l]. *)
Definition range (l e : N) : list N :=
  map (fun k => (l + N.of_nat k)%N) (seq 0 (N.to_nat (e - l))).

(* ------------------------------------------------------------------ *)
(** ** utils/mod.rs *)

Module Utils.

(** The [loop] of [gcd]: [res = max % min]; stop on [res == 0]. The loop
    runs at most [min + 1] times since [min] strictly decreases. *)
Fixpoint gcd_loop (fuel : nat) (max min : N) : outcome N :=
  match fuel with
  | O => OutOfFuel
  | S f =>
      res <- usize_rem max min ;;
      if (res =? 0)%N then Ret min else gcd_loop f min res
  end.

(** [gcd]: put the larger argument in [max] ([if min > max] swap). *)
Definition gcd (x y : N) : outcome N :=
  let '(max, min) := if (x <? y)%N then (y, x) else (x, y) in
  gcd_loop (S (N.to_nat min)) max min.

(** [lcm]: [x * y / gcd(x, y)]. *)
Definition lcm (prof : Profile) (x y : N) : outcome N :=
  p <- usize_mul prof x y ;;
  g <- gcd x y ;;
  usize_div p g.

Section Permutations.
Context {A : Type}.

(** [temp = list[i]; list[i] = list[l]; list[l] = temp] (panics when an
    index is out of bounds). *)
Definition swap (lst : list A) (i l : N) : outcome (list A) :=
  match lst !! N.to_nat i, lst !! N.to_nat l with
  | Some a, Some b => Ret (<[N.to_nat l := a]> (<[N.to_nat i := b]> lst))
  | _, _ => Panic
  end.

(** [permutation_helper(list, l, r, buff)], returning the final contents
    of [list] and [buff] (both are [&mut] in the source). The recursion
    depth is at most [r + 1 - l]; [fuel] bounds it. *)
Fixpoint permutation_helper (prof : Profile) (fuel : nat) (lst : list A)
    (l r : N) (buff : list (list A)) : outcome (list A * list (list A)) :=
  match fuel with
  | O => OutOfFuel
  | S f =>
      let buff := if (l =? r)%N then buff ++ [lst] else buff in
      e <- usize_add prof r 1 ;;
      foldM (fun '(lst, buff) i =>
               lst <- swap lst i l ;;
               l1 <- usize_add prof l 1 ;;
               bind (permutation_helper prof f lst l1 r buff) (fun '(lst, buff) =>
               lst <- swap lst i l ;;
               Ret (lst, buff)))
            (range l e) (lst, buff)
  end.

(** [permutations(list)]: [Vec::with_capacity(2usize.pow(len as u32))]
    only reserves memory, but its [pow] is evaluated (and can overflow);
    then [permutation_helper(list, 0, len - 1, &mut ans)]. *)
Definition permutations (prof : Profile) (lst : list A) : outcome (list (list A)) :=
  let len := N.of_nat (length lst) in
  _ <- usize_pow prof 2 (len `mod` 2 ^ 32) ;;
  r <- usize_sub prof len 1 ;;
  res <- permutation_helper prof (S (length lst)) lst 0 r [] ;;
  Ret (snd res).

End Permutations.

End Utils.

(* ------------------------------------------------------------------ *)
(** ** type_system/mod.rs *)

Module TypeSystem.

Abbreviation Name := string.
Abbreviation TypeList := (list string).

Record Atomic := { representation : N; alignment : N }.
Record Struct := { members : TypeList }.
Record Union := { variants : TypeList }.

(** [enum Type] *)
Inductive Ty :=
  | TAtomic (a : Atomic)
  | TStruct (s : Struct)
  | TUnion (u : Union).

Inductive TypeError :=
  | TypeRedefinition
  | NoZeroAlign
  | NoZeroSizedType
  | EmptyCompoundType
  | TypeDoesNotExist (n : Name).

(** [Result<(), TypeError>] *)
Inductive Result :=
  | Ok
  | Err (e : TypeError).

(** [TypeManager { types: HashMap<Name, Type> }] *)
Abbreviation TypeManager := (gmap string Ty).

Definition new : TypeManager := ∅.

(** [for sym in list { if !self.types.contains_key(sym) { return ... } }] *)
Fixpoint first_missing (types : TypeManager) (l : TypeList) : option Name :=
  match l with
  | [] => None
  | sym :: l' =>
      match types !! sym with
      | None => Some sym
      | Some _ => first_missing types l'
      end
  end.

(** The [Struct] and [Union] arms of [check_new_type] (they are the same
    code on [members] and on [variants]). *)
Definition check_compound (types : TypeManager) (l : TypeList) : Result :=
  match first_missing types l with
  | Some sym => Err (TypeDoesNotExist sym)
  | None =>
      match l with
      | [] => Err EmptyCompoundType
      | _ => Ok
      end
  end.

Definition check_new_type (types : TypeManager) (name : Name) (type_data : Ty) : Result :=
  match types !! name with
  | Some _ => Err TypeRedefinition
  | None =>
      match type_data with
      | TAtomic a =>
          if (representation a =? 0)%N then Err NoZeroSizedType
          else if (alignment a =? 0)%N then Err NoZeroAlign
          else Ok
      | TStruct s => check_compound types (members s)
      | TUnion u => check_compound types (variants u)
      end
  end.

(** [add(&mut self, typename, new_type)]: the new state and the result. *)
Definition add (types : TypeManager) (typename : Name) (new_type : Ty) : TypeManager * Result :=
  match check_new_type types typename new_type with
  | Err e => (types, Err e)
  | Ok => (<[typename := new_type]> types, Ok)
  end.

(** [TypeManager::get] *)
Definition get (types : TypeManager) (typename : Name) : option Ty := types !! typename.

(** The registries the program can build: [TypeManager::new()] followed
    by any sequence of [add] calls (a failed call leaves it unchanged). *)
Inductive reachable : TypeManager -> Prop :=
  | reachable_new : reachable new
  | reachable_add types name t :
      reachable types -> reachable (fst (add types name t)).

(** The three [fn(&Struct, &TypeManager) -> usize] passed as
    [struct_packing_size] / [struct_packing_align]. *)
Inductive SizeFn := Struct_unpacked_size | Struct_packed_size | Struct_optimized_size.
Inductive AlignFn := Struct_unpacked_align | Struct_packed_align | Struct_optimized_align.

Definition unwrap {A} (o : option A) : outcome A :=
  match o with Some a => Ret a | None => Panic end.

(** [v[i]] *)
Definition index {A} (l : list A) (i : N) : outcome A :=
  unwrap (l !! N.to_nat i).

Fixpoint mapM {A B} (f : A -> outcome B) (l : list A) : outcome (list B) :=
  match l with
  | [] => Ret []
  | x :: l' => y <- f x ;; ys <- mapM f l' ;; Ret (y :: ys)
  end.

Section Layout.
Variable prof : Profile.
Variable manager : TypeManager.

(** [if curr_pos % align != 0 { curr_pos += align - curr_pos % align }]
    then [curr_pos += size]. *)
Definition place (curr_pos size align : N) : outcome N :=
  rem <- usize_rem curr_pos align ;;
  curr_pos <- (if (rem =? 0)%N then Ret curr_pos
               else d <- usize_sub prof align rem ;; usize_add prof curr_pos d) ;;
  usize_add prof curr_pos size.

(** [Struct::members_permutations] *)
Definition members_permutations (s : Struct) : outcome (list TypeList) :=
  indices <- Utils.permutations prof (range 0 (N.of_nat (length (members s)))) ;;
  mapM (mapM (index (members s))) indices.

(** The bodies of the loops below, given the [size] and [align] that
    [Type::size] and [Type::align] compute for the current packing. *)

(** One iteration of the position loop of [unpacked_size] and of
    [get_optimal_layout]: look the member up, pad, then place it. *)
Definition member_place (tsize talign : Ty -> outcome N) (curr_pos : N) (member : Name)
    : outcome N :=
  my_type <- unwrap (manager !! member) ;;
  size <- tsize my_type ;;
  align <- talign my_type ;;
  place curr_pos size align.

(** One iteration of [packed_size]: [sum += size]. *)
Definition member_sum (tsize : Ty -> outcome N) (sum : N) (t : Name) : outcome N :=
  my_type <- unwrap (manager !! t) ;;
  size <- tsize my_type ;;
  usize_add prof sum size.

(** One iteration of the search of [get_optimal_layout]: keep [typelist]
    when its size is strictly below the current [min]. *)
Definition keep_min (lsize : TypeList -> outcome N) (acc : N * TypeList) (typelist : TypeList)
    : outcome (N * TypeList) :=
  let '(min, layout) := acc in
  curr_pos <- lsize typelist ;;
  if (curr_pos <? min)%N then Ret (curr_pos, typelist) else Ret (min, layout).

(** One iteration of [Union::size]: [maxi = max(size, maxi)]. *)
Definition variant_max (tsize : Ty -> outcome N) (maxi : N) (t : Name) : outcome N :=
  my_type <- unwrap (manager !! t) ;;
  size <- tsize my_type ;;
  Ret (N.max size maxi).

(** One iteration of [Union::align]: [lcm = lcm(align(v[i]), align(v[i+1]))]
    (the previous value of [lcm] is not used). *)
Definition variant_lcm (talign : Ty -> outcome N) (vs : TypeList) (lcm : N) (i : N) : outcome N :=
  v1 <- index vs i ;;
  t1 <- unwrap (manager !! v1) ;;
  size1 <- talign t1 ;;
  i1 <- usize_add prof i 1 ;;
  v2 <- index vs i1 ;;
  t2 <- unwrap (manager !! v2) ;;
  size2 <- talign t2 ;;
  Utils.lcm prof size1 size2.

Fixpoint type_size (fuel : nat) (sp : SizeFn) (t : Ty) {struct fuel} : outcome N :=
  match fuel with
  | O => OutOfFuel
  | S f =>
      match t with
      | TAtomic a => Ret (representation a)
      | TStruct s =>
          match sp with
          | Struct_unpacked_size => unpacked_size f s
          | Struct_packed_size => packed_size f s
          | Struct_optimized_size => optimized_size f s
          end
      | TUnion u => union_size f u sp
      end
  end
with type_align (fuel : nat) (ap : AlignFn) (t : Ty) {struct fuel} : outcome N :=
  match fuel with
  | O => OutOfFuel
  | S f =>
      match t with
      | TAtomic a => Ret (alignment a)
      | TStruct s =>
          match ap with
          | Struct_unpacked_align => unpacked_align f s
          | Struct_packed_align => packed_align f s
          | Struct_optimized_align => optimized_align f s
          end
      | TUnion u => union_align f u ap
      end
  end
with unpacked_size (fuel : nat) (s : Struct) {struct fuel} : outcome N :=
  match fuel with
  | O => OutOfFuel
  | S f =>
      foldM (member_place (type_size f Struct_unpacked_size) (type_align f Struct_unpacked_align))
            (members s) 0%N
  end
with packed_size (fuel : nat) (s : Struct) {struct fuel} : outcome N :=
  match fuel with
  | O => OutOfFuel
  | S f => foldM (member_sum (type_size f Struct_packed_size)) (members s) 0%N
  end
with optimized_size (fuel : nat) (s : Struct) {struct fuel} : outcome N :=
  match fuel with
  | O => OutOfFuel
  | S f => res <- get_optimal_layout f s ;; Ret (snd res)
  end
with unpacked_align (fuel : nat) (s : Struct) {struct fuel} : outcome N :=
  match fuel with
  | O => OutOfFuel
  | S f =>
      first <- index (members s) 0 ;;
      my_type <- unwrap (manager !! first) ;;
      type_align f Struct_unpacked_align my_type
  end
with packed_align (fuel : nat) (s : Struct) {struct fuel} : outcome N :=
  match fuel with
  | O => OutOfFuel
  | S f =>
      first <- index (members s) 0 ;;
      my_type <- unwrap (manager !! first) ;;
      type_align f Struct_packed_align my_type
  end
with optimized_align (fuel : nat) (s : Struct) {struct fuel} : outcome N :=
  match fuel with
  | O => OutOfFuel
  | S f =>
      res <- get_optimal_layout f s ;;
      first <- index (fst res) 0 ;;
      my_type <- unwrap (manager !! first) ;;
      type_align f Struct_optimized_align my_type
  end
with get_optimal_layout (fuel : nat) (s : Struct) {struct fuel} : outcome (TypeList * N) :=
  match fuel with
  | O => OutOfFuel
  | S f =>
      permuts <- members_permutations s ;;
      best <- foldM (keep_min (fun typelist =>
                       foldM (member_place (type_size f Struct_optimized_size)
                                           (type_align f Struct_optimized_align))
                             typelist 0%N))
                    permuts (usize_max, []) ;;
      Ret (snd best, fst best)
  end
with union_size (fuel : nat) (u : Union) (sp : SizeFn) {struct fuel} : outcome N :=
  match fuel with
  | O => OutOfFuel
  | S f => foldM (variant_max (type_size f sp)) (variants u) 0%N
  end
with union_align (fuel : nat) (u : Union) (ap : AlignFn) {struct fuel} : outcome N :=
  match fuel with
  | O => OutOfFuel
  | S f =>
      last <- usize_sub prof (N.of_nat (length (variants u))) 1 ;;
      foldM (variant_lcm (type_align f ap) (variants u)) (range 0 last) 1%N
  end.

(** The numbers of [Struct::display]: for the optimized, unpacked and
    packed layouts, the size and the loss [size - packed_size]. *)
Definition struct_report (fuel : nat) (s : Struct) : outcome (N * N * N * N * N * N) :=
  optimal_size <- optimized_size fuel s ;;
  unpacked <- unpacked_size fuel s ;;
  packed <- packed_size fuel s ;;
  l1 <- usize_sub prof optimal_size packed ;;
  l2 <- usize_sub prof unpacked packed ;;
  l3 <- usize_sub prof packed packed ;;
  Ret (optimal_size, l1, unpacked, l2, packed, l3).

(** One iteration of the loop of [Union::loss], given [Type::size] for
    the union's packing ([tsize]) and for [Struct::packed_size]
    ([psize]): a variant whose size is not [size] is skipped ([continue]),
    otherwise [packed_size = max(packed_size, its packed size)]. *)
Definition loss_step (tsize psize : Ty -> outcome N) (size packed_size : N) (typename : Name)
    : outcome N :=
  my_type <- unwrap (manager !! typename) ;;
  s <- tsize my_type ;;
  if negb (s =? size)%N then Ret packed_size
  else p <- psize my_type ;; Ret (N.max packed_size p).

(** [Union::loss]: [size - biggest_packed], the loop starting from
    [usize::MIN = 0]. *)
Definition union_loss (fuel : nat) (u : Union) (sp : SizeFn) : outcome N :=
  match fuel with
  | O => OutOfFuel
  | S f =>
      size <- union_size fuel u sp ;;
      biggest_packed <- foldM (loss_step (type_size f sp) (type_size f Struct_packed_size) size)
                              (variants u) 0%N ;;
      usize_sub prof size biggest_packed
  end.

(** The numbers of [Union::display], computed in the order of the source
    (unpacked, packed, optimized; size then loss), returned in the order
    they are printed: optimized, unpacked, packed. *)
Definition union_report (fuel : nat) (u : Union) : outcome (N * N * N * N * N * N) :=
  us <- union_size fuel u Struct_unpacked_size ;;
  ul <- union_loss fuel u Struct_unpacked_size ;;
  ps <- union_size fuel u Struct_packed_size ;;
  pl <- union_loss fuel u Struct_packed_size ;;
  os <- union_size fuel u Struct_optimized_size ;;
  ol <- union_loss fuel u Struct_optimized_size ;;
  Ret (os, ol, us, ul, ps, pl).

(** What [Type::display] formats: the fields of an atomic type
    ([Atomic::display]), or the numbers of [Struct::display] or
    [Union::display]. *)
Inductive Report :=
  | RAtomic (representation alignment : N)
  | RStruct (numbers : N * N * N * N * N * N)
  | RUnion (numbers : N * N * N * N * N * N).

(** [Result<String, TypeError>], the string given by what it formats. *)
Inductive DisplayResult :=
  | DOk (r : Report)
  | DErr (e : TypeError).

(** [Type::display] *)
Definition type_display (fuel : nat) (t : Ty) : outcome Report :=
  match t with
  | TAtomic a => Ret (RAtomic (representation a) (alignment a))
  | TStruct s => r <- struct_report fuel s ;; Ret (RStruct r)
  | TUnion u => r <- union_report fuel u ;; Ret (RUnion r)
  end.

(** [TypeManager::display]: [contains_key], then [get(..).unwrap()]. *)
Definition display (fuel : nat) (typename : Name) : outcome DisplayResult :=
  match manager !! typename with
  | None => Ret (DErr (TypeDoesNotExist typename))
  | Some t => r <- type_display fuel t ;; Ret (DOk r)
  end.

End Layout.

End TypeSystem.

(* ------------------------------------------------------------------ *)
(** ** driver/mod.rs and main.rs *)

Module Driver.
Import TypeSystem.

(** [Program { running, manager }] *)
Record Program := { running : bool; manager : TypeManager }.

(** [Program::new()] *)
Definition new_program : Program := {| running := true; manager := new |}.

Inductive ProgramError :=
  | NotEnoughArgs
  | TooManyArgs
  | InvalidAction (s : string)
  | InvalidArgument (s : string).

Inductive Action :=
  | Display (n : Name)
  | AddStruct (n : Name) (members : TypeList)
  | AddUnion (n : Name) (variants : TypeList)
  | AddAtomic (n : Name) (repr align : N)
  | Exit.

(** [Result<Action, ProgramError>] *)
Inductive ParseResult :=
  | POk (a : Action)
  | PErr (e : ProgramError).

(** [str::parse::<usize>()] (Rust's [from_str_radix] with radix 10):
    refuse the empty string and a lone [+]; drop one leading [+] (byte
    43; a [-] is not a digit of an unsigned type); then every byte must
    be an ASCII digit, and each step [acc * 10 + d] must
    stay within [usize::MAX] ([checked_mul], [checked_add]). *)
Definition digit_value (c : Ascii.ascii) : option N :=
  let n := Ascii.nat_of_ascii c in
  if (48 <=? n) && (n <=? 57) then Some (N.of_nat (n - 48)) else None.

Fixpoint digits_value (acc : N) (s : string) : option N :=
  match s with
  | EmptyString => Some acc
  | String c s' =>
      match digit_value c with
      | None => None
      | Some d =>
          let v := (acc * 10 + d)%N in
          if (v <=? usize_max)%N then digits_value v s' else None
      end
  end.

Definition parse_usize (src : string) : option N :=
  match src with
  | EmptyString => None
  | String c rest =>
      if (Ascii.nat_of_ascii c =? 43)%nat then
        match rest with
        | EmptyString => None
        | _ => digits_value 0 rest
        end
      else digits_value 0 src
  end.

(** The parsers read the tokens that [split_whitespace] yields, in order. *)

(** [Program::parse_action(input, act)] *)
Definition parse_action (input : list string) (act : Name -> TypeList -> Action) : ParseResult :=
  match input with
  | [] => PErr NotEnoughArgs
  | name :: types => POk (act name types)
  end.

(** [Program::parse_atomic(input)]: both number parse failures report
    [repr]. *)
Definition parse_atomic (input : list string) : ParseResult :=
  match input with
  | [] => PErr NotEnoughArgs
  | name :: input =>
      match input with
      | [] => PErr NotEnoughArgs
      | repr :: input =>
          match input with
          | [] => PErr NotEnoughArgs
          | align :: input =>
              match input with
              | _ :: _ => PErr TooManyArgs
              | [] =>
                  match parse_usize repr with
                  | None => PErr (InvalidArgument repr)
                  | Some r =>
                      match parse_usize align with
                      | None => PErr (InvalidArgument repr)
                      | Some a => POk (AddAtomic name r a)
                      end
                  end
              end
          end
      end
  end.

(** [Program::parse_display(input)] *)
Definition parse_display (input : list string) : ParseResult :=
  match input with
  | [] => PErr NotEnoughArgs
  | name :: input =>
      match input with
      | _ :: _ => PErr TooManyArgs
      | [] => POk (Display name)
      end
  end.

Section Run.
(** [str::to_lowercase] (Unicode case mapping), applied to the verb. *)
Variable to_lowercase : string -> string.
Variable prof : Profile.

(** [Program::parse(input)], on the tokens of [input]. *)
Definition parse (input : list string) : ParseResult :=
  match input with
  | [] => PErr NotEnoughArgs
  | s :: input =>
      let action := to_lowercase s in
      if String.eqb action "salir" then POk Exit
      else if String.eqb action "union" then parse_action input AddUnion
      else if String.eqb action "struct" then parse_action input AddStruct
      else if String.eqb action "atomico" then parse_atomic input
      else if String.eqb action "describir" then parse_display input
      else PErr (InvalidAction action)
  end.

(** What an iteration of [Program::run] gets from its environment:
    whether [print!(">> ")] and [io::stdout().flush()] succeed, what
    [io::stdin().read_line] returns (the tokens [split_whitespace] yields
    from the line read, or [None] for an [Err], e.g. input that is not
    UTF-8), and whether the [println!] of a message succeeds. *)
Record Io := { prompt_ok : bool; read : option (list string); print_ok : bool }.

(** A [println!] of a message: it panics when writing fails. *)
Definition println (io : Io) (p : Program) : outcome Program :=
  if print_ok io then Ret p else Panic.

(** [self.manager.add(name, t).err().and_then(handle_error)]: an error
    is printed. *)
Definition run_add (io : Io) (p : Program) (name : Name) (t : Ty) : outcome Program :=
  let '(m', res) := add (manager p) name t in
  let p' := {| running := running p; manager := m' |} in
  match res with
  | Ok => Ret p'
  | Err _ => println io p'
  end.

(** [Program::run]: the state after the iteration. A failing prompt,
    flush or read panics; parse and type errors are printed and leave the
    state unchanged; a [Display] prints the numbers or the error, and can
    panic in the layout code. *)
Definition run (fuel : nat) (p : Program) (io : Io) : outcome Program :=
  if negb (prompt_ok io) then Panic else
  match read io with
  | None => Panic
  | Some line =>
      match parse line with
      | PErr _ => println io p
      | POk next_action =>
          match next_action with
          | Exit => Ret {| running := false; manager := manager p |}
          | Display s => _ <- display prof (manager p) fuel s ;; println io p
          | AddAtomic name repr align =>
              run_add io p name (TAtomic {| representation := repr; alignment := align |})
          | AddStruct name members => run_add io p name (TStruct {| TypeSystem.members := members |})
          | AddUnion name variants => run_add io p name (TUnion {| TypeSystem.variants := variants |})
          end
      end
  end.

(** [while program.should_run() { program.run() }] of [main], on the
    environments of the iterations: it stops at the first iteration
    after which [running] is false. The model also stops when the given
    iterations run out; the program itself keeps reading, and at the end
    of the input [read_line] gives an empty line, a [NotEnoughArgs]
    error that is printed and changes nothing. *)
Fixpoint main_loop (fuel : nat) (p : Program) (ios : list Io) : outcome Program :=
  match ios with
  | [] => Ret p
  | io :: ios =>
      if running p then p' <- run fuel p io ;; main_loop fuel p' ios else Ret p
  end.

End Run.

End Driver.

(* ------------------------------------------------------------------ *)
(** ** Definitions used by the proofs *)

Module Spec.
Import TypeSystem.

Section PermOut.
Context {A : Type}.

(** The swap of [permutation_helper] on in-bounds indices, as a function. *)
Definition swapL (xs : list A) (i l : N) : list A :=
  match xs !! N.to_nat i, xs !! N.to_nat l with
  | Some a, Some b => <[N.to_nat l := a]> (<[N.to_nat i := b]> xs)
  | _, _ => xs
  end.

(** The orderings that [permutation_helper] appends to [buff], in closed
    form (the list it works on is restored after each iteration). *)
Fixpoint perm_out (f : nat) (xs : list A) (l r : N) : list (list A) :=
  match f with
  | O => []
  | S f' =>
      (if (l =? r)%N then [xs] else []) ++
      flat_map (fun i => perm_out f' (swapL xs i l) (l + 1) r) (range l (r + 1))
  end.

End PermOut.

(** The names a type refers to. *)
Definition refs (t : Ty) : TypeList :=
  match t with
  | TAtomic _ => []
  | TStruct s => members s
  | TUnion u => variants u
  end.

(** Every member or variant name of a stored type is itself stored. *)
Definition closed (types : TypeManager) : Prop :=
  forall k t, types !! k = Some t -> forall x, x ∈ refs t -> is_Some (types !! x).

(** A rank on names that strictly decreases along references. *)
Definition ranked (types : TypeManager) (rank : Name -> nat) : Prop :=
  forall k t, types !! k = Some t -> forall x, x ∈ refs t -> rank x < rank k.

(** Enough fuel: from [G] on, no size or alignment computation of [t]
    runs out of fuel. *)
Definition terminates (prof : Profile) (types : TypeManager) (G : nat) (t : Ty) : Prop :=
  forall F, G <= F -> forall sp ap,
    type_size prof types F sp t <> OutOfFuel /\ type_align prof types F ap t <> OutOfFuel.

(** The value [tsize] gives to the type stored under [x] (0 when there
    is none or when [tsize] fails). *)
Definition size_of (types : TypeManager) (tsize : Ty -> outcome N) (x : Name) : N :=
  match types !! x with
  | Some ty => match tsize ty with Ret v => v | _ => 0%N end
  | None => 0%N
  end.

(** What [check_new_type] checks of a type on its own. *)
Definition valid_type (t : Ty) : Prop :=
  match t with
  | TAtomic a => (0 < representation a)%N /\ (0 < alignment a)%N
  | TStruct s => members s <> []
  | TUnion u => variants u <> []
  end.

Fixpoint sumN (l : list N) : N :=
  match l with [] => 0%N | x :: l' => (x + sumN l')%N end.

End Spec.

(* ------------------------------------------------------------------ *)
(** ** Sample registries *)

Module Examples.
Import TypeSystem.

(** [TypeManager::new()] followed by [add] of each pair, in order. *)
Definition register (l : list (Name * Ty)) : TypeManager :=
  fold_left (fun m nt => fst (add m (fst nt) (snd nt))) l new.

Definition atomic (size align : N) : Ty :=
  TAtomic {| representation := size; alignment := align |}.

(** A union whose variants have alignments 4, 2 and 3. *)
Definition u_abc : Union := {| variants := ["a"; "b"; "c"] |}.
Definition union_types : TypeManager :=
  register [("a", atomic 1 4); ("b", atomic 1 2); ("c", atomic 1 3); ("u", TUnion u_abc)].

(** The registry of the README example: [int] and [char]. *)
Definition s1 : Struct := {| members := ["int"; "char"] |}.
Definition s2 : Struct := {| members := ["char"; "int"] |}.
Definition int_char : TypeManager :=
  register [("int", atomic 4 4); ("char", atomic 1 4)].
Definition int_char_s : TypeManager :=
  register [("int", atomic 4 4); ("char", atomic 1 4);
            ("s1", TStruct s1); ("s2", TStruct s2)].

(** A struct [S] made of two copies of the struct [T = [a; b]]. *)
Definition T_ab : Struct := {| members := ["a"; "b"] |}.
Definition S_TT : Struct := {| members := ["T"; "T"] |}.
Definition nested_types : TypeManager :=
  register [("a", atomic 3 1); ("b", atomic 2 4); ("T", TStruct T_ab); ("S", TStruct S_TT)].


End Examples.

(* ================================================================== *)
(** * Proofs *)

Example gcd_tests :
  Utils.gcd 4 1 = Ret 1%N /\ Utils.gcd 4 4 = Ret 4%N /\
  Utils.gcd 7 9 = Ret 1%N /\ Utils.gcd 3 9 = Ret 3%N.
Proof. vm_compute. auto. Qed.

Example permutations_test :
  Utils.permutations Dev [1; 2; 3] =
    Ret [[1; 2; 3]; [1; 3; 2]; [2; 1; 3]; [2; 3; 1]; [3; 2; 1]; [3; 1; 2]].
Proof. vm_compute. reflexivity. Qed.


Import TypeSystem Spec.

(* ------------------------------------------------------------------ *)
(** ** The outcome monad *)

Lemma bind_eq_Ret {A B} (m : outcome A) (k : A -> outcome B) b :
  bind m k = Ret b -> exists a, m = Ret a /\ k a = Ret b.
Proof. destruct m; simpl; intros H; [eauto | discriminate | discriminate]. Qed.

Lemma foldM_cons_Ret {A B} (f : B -> A -> outcome B) x l a r :
  foldM f (x :: l) a = Ret r -> exists b, f a x = Ret b /\ foldM f l b = Ret r.
Proof. simpl. apply bind_eq_Ret. Qed.

Lemma bind_not_oof {A B} (m : outcome A) (k : A -> outcome B) :
  m <> OutOfFuel -> (forall a, m = Ret a -> k a <> OutOfFuel) -> bind m k <> OutOfFuel.
Proof. destruct m; simpl; intros H1 H2; [apply H2; reflexivity | discriminate | done]. Qed.

Lemma foldM_not_oof {A B} (f : B -> A -> outcome B) l :
  (forall acc x, In x l -> f acc x <> OutOfFuel) -> forall a, foldM f l a <> OutOfFuel.
Proof.
  induction l as [|x l IH]; intros Hf a; simpl; [discriminate|].
  apply bind_not_oof; [apply Hf; left; reflexivity|].
  intros b _. apply IH. intros acc y Hy. apply Hf. right. exact Hy.
Qed.

Lemma overflow_not_oof prof v : overflow prof v <> OutOfFuel.
Proof. destruct prof; discriminate. Qed.

Lemma usize_add_not_oof prof a b : usize_add prof a b <> OutOfFuel.
Proof. unfold usize_add. destruct (_ <=? _)%N; [discriminate | apply overflow_not_oof]. Qed.

Lemma usize_sub_not_oof prof a b : usize_sub prof a b <> OutOfFuel.
Proof. unfold usize_sub. destruct (_ <=? _)%N; [discriminate | apply overflow_not_oof]. Qed.

Lemma usize_mul_not_oof prof a b : usize_mul prof a b <> OutOfFuel.
Proof. unfold usize_mul. destruct (_ <=? _)%N; [discriminate | apply overflow_not_oof]. Qed.

Lemma usize_pow_not_oof prof a b : usize_pow prof a b <> OutOfFuel.
Proof. unfold usize_pow. destruct (_ <=? _)%N; [discriminate | apply overflow_not_oof]. Qed.

Lemma usize_div_not_oof a b : usize_div a b <> OutOfFuel.
Proof. unfold usize_div. destruct (_ =? _)%N; discriminate. Qed.

Lemma usize_rem_not_oof a b : usize_rem a b <> OutOfFuel.
Proof. unfold usize_rem. destruct (_ =? _)%N; discriminate. Qed.

Lemma usize_add_small prof a b : (a + b <= usize_max)%N -> usize_add prof a b = Ret (a + b)%N.
Proof. intros H. unfold usize_add. apply N.leb_le in H. rewrite H. reflexivity. Qed.

Lemma usize_add_Dev a b c : usize_add Dev a b = Ret c -> c = (a + b)%N /\ (c <= usize_max)%N.
Proof.
  unfold usize_add. destruct (_ <=? _)%N eqn:E; simpl; intros H; [|discriminate].
  inversion H; subst. apply N.leb_le in E. auto.
Qed.

Lemma usize_sub_Dev a b c : usize_sub Dev a b = Ret c -> c = (a - b)%N /\ (b <= a)%N.
Proof.
  unfold usize_sub. destruct (_ <=? _)%N eqn:E; simpl; intros H; [|discriminate].
  inversion H; subst. apply N.leb_le in E. auto.
Qed.

Lemma range_In l e i : In i (range l e) <-> (l <= i < e)%N.
Proof.
  unfold range. rewrite in_map_iff. split.
  - intros (k & <- & Hk). apply in_seq in Hk. lia.
  - intros H. exists (N.to_nat (i - l)). split; [lia|]. apply in_seq. lia.
Qed.

Lemma range_NoDup l e : NoDup (range l e).
Proof.
  unfold range. apply NoDup_ListNoDup, NoDup_map_NoDup_ForallPairs.
  - intros x y _ _ H. lia.
  - apply NoDup_ListNoDup, NoDup_seq.
Qed.

Lemma range_length l e : length (range l e) = N.to_nat (e - l).
Proof. unfold range. rewrite length_map, length_seq. reflexivity. Qed.

(* ------------------------------------------------------------------ *)
(** ** Swapping two positions *)

Section Swap.
Context {A : Type}.
Implicit Types xs : list A.

Lemma swap_Ret xs i l :
  N.to_nat i < length xs -> N.to_nat l < length xs -> Utils.swap xs i l = Ret (swapL xs i l).
Proof.
  intros Hi Hl. unfold Utils.swap, swapL.
  destruct (lookup_lt_is_Some_2 xs _ Hi) as [a ->].
  destruct (lookup_lt_is_Some_2 xs _ Hl) as [b ->]. reflexivity.
Qed.

Lemma length_swapL xs i l : length (swapL xs i l) = length xs.
Proof.
  unfold swapL. destruct (xs !! N.to_nat i), (xs !! N.to_nat l); rewrite ?length_insert; reflexivity.
Qed.

Lemma swapL_lookup_l xs i l :
  N.to_nat i < length xs -> N.to_nat l < length xs -> swapL xs i l !! N.to_nat l = xs !! N.to_nat i.
Proof.
  intros Hi Hl. unfold swapL.
  destruct (lookup_lt_is_Some_2 xs _ Hi) as [a Ha]. rewrite Ha.
  destruct (lookup_lt_is_Some_2 xs _ Hl) as [b ->].
  rewrite list_lookup_insert_eq; [reflexivity|]. rewrite length_insert. exact Hl.
Qed.

Lemma swapL_lookup_other xs i l j :
  j <> N.to_nat i -> j <> N.to_nat l -> swapL xs i l !! j = xs !! j.
Proof.
  intros Hi Hl. unfold swapL. destruct (xs !! N.to_nat i), (xs !! N.to_nat l); [|reflexivity..].
  rewrite !list_lookup_insert_ne by congruence. reflexivity.
Qed.

Lemma swapL_lookup_i xs i l :
  N.to_nat i < length xs -> N.to_nat l < length xs -> N.to_nat i <> N.to_nat l ->
  swapL xs i l !! N.to_nat i = xs !! N.to_nat l.
Proof.
  intros Hi Hl Hne. unfold swapL.
  destruct (lookup_lt_is_Some_2 xs _ Hi) as [a ->].
  destruct (lookup_lt_is_Some_2 xs _ Hl) as [b Hb]. rewrite Hb.
  rewrite list_lookup_insert_ne by congruence.
  rewrite list_lookup_insert_eq by exact Hi. reflexivity.
Qed.

Lemma swapL_involutive xs i l :
  N.to_nat i < length xs -> N.to_nat l < length xs -> swapL (swapL xs i l) i l = xs.
Proof.
  intros Hi Hl. pose proof (length_swapL xs i l) as Hlen.
  apply list_eq. intros j.
  destruct (decide (j = N.to_nat l)) as [->|HjL].
  - rewrite swapL_lookup_l by lia.
    destruct (decide (N.to_nat i = N.to_nat l)) as [E|E].
    + rewrite E. rewrite swapL_lookup_l by lia. rewrite E. reflexivity.
    + apply swapL_lookup_i; lia.
  - destruct (decide (j = N.to_nat i)) as [->|HjI].
    + rewrite swapL_lookup_i by lia. apply swapL_lookup_l; lia.
    + rewrite !swapL_lookup_other by assumption. reflexivity.
Qed.

Lemma insert_cons_Permutation xs k x y :
  xs !! k = Some y -> y :: <[k:=x]> xs ≡ₚ x :: xs.
Proof.
  revert k. induction xs as [|z xs IH]; intros k Hk; [discriminate|].
  destruct k as [|k]; simpl in *.
  - inversion Hk; subst. apply perm_swap.
  - etrans; [apply perm_swap|]. etrans; [apply perm_skip, IH, Hk|]. apply perm_swap.
Qed.

Lemma insert_swap_Permutation xs (I L : nat) a b :
  xs !! I = Some a -> xs !! L = Some b -> <[L:=a]> (<[I:=b]> xs) ≡ₚ xs.
Proof.
  revert I L. induction xs as [|x xs IH]; intros I L Ha Hb; [discriminate|].
  destruct I as [|I], L as [|L]; simpl in *.
  - inversion Ha; subst. reflexivity.
  - inversion Ha; subst. apply insert_cons_Permutation. exact Hb.
  - inversion Hb; subst. apply insert_cons_Permutation. exact Ha.
  - apply perm_skip. apply IH; assumption.
Qed.

Lemma swapL_Permutation xs i l : swapL xs i l ≡ₚ xs.
Proof.
  unfold swapL. destruct (xs !! N.to_nat i) eqn:Ha, (xs !! N.to_nat l) eqn:Hb; try reflexivity.
  eapply insert_swap_Permutation; eassumption.
Qed.

End Swap.

Lemma usize_add_le_max prof a b c : usize_add prof a b = Ret c -> (c <= usize_max)%N.
Proof.
  unfold usize_add, overflow, wrap, usize_max.
  destruct (_ <=? _)%N eqn:E; [intros H; inversion H; subst; apply N.leb_le in E; exact E|].
  destruct prof; intros H; inversion H; subst.
  pose proof (N.mod_lt (a + b) (2 ^ 64) ltac:(discriminate)). lia.
Qed.

Lemma usize_add_le prof a b c : usize_add prof a b = Ret c -> (c <= a + b)%N.
Proof.
  unfold usize_add, overflow, wrap.
  destruct (_ <=? _)%N; [intros H; inversion H; lia|].
  destruct prof; intros H; inversion H; subst. apply N.Div0.mod_le.
Qed.

(* ------------------------------------------------------------------ *)
(** ** [permutation_helper] and [permutations] *)

Section Perms.
Context {A : Type}.

Lemma permutation_helper_spec prof (r : N) :
  (r + 1 <= usize_max)%N ->
  forall f (xs : list A) l buff,
  length xs = N.to_nat (r + 1) -> (l <= r + 1)%N -> N.to_nat (r + 1 - l) < f ->
  Utils.permutation_helper prof f xs l r buff = Ret (xs, buff ++ perm_out f xs l r).
Proof.
  intros Hr f. induction f as [|f IH]; intros xs l buff Hlen Hl Hf; [lia|].
  cbn [Utils.permutation_helper perm_out].
  rewrite (usize_add_small prof r 1 Hr). cbn [bind].
  destruct (N.lt_ge_cases l (r + 1)) as [Hlt|Hge].
  2:{ replace (range l (r + 1)) with (@nil N)
        by (unfold range; replace (N.to_nat (r + 1 - l)) with 0 by lia; reflexivity).
      destruct (l =? r)%N; simpl; rewrite ?app_nil_r; reflexivity. }
  rewrite (usize_add_small prof l 1) by lia.
  replace (buff ++ ((if (l =? r)%N then [xs] else []) ++
      flat_map (fun i => perm_out f (swapL xs i l) (l + 1) r) (range l (r + 1))))
    with ((if (l =? r)%N then buff ++ [xs] else buff) ++
      flat_map (fun i => perm_out f (swapL xs i l) (l + 1) r) (range l (r + 1)))
    by (destruct (l =? r)%N; rewrite <- ?app_assoc; reflexivity).
  assert (Hin : forall i, In i (range l (r + 1)) -> (l <= i < r + 1)%N)
    by (intros i; apply range_In).
  revert Hin. generalize (range l (r + 1)) as is.
  generalize (if (l =? r)%N then buff ++ [xs] else buff) as b0.
  intros b0 is. revert b0. induction is as [|i is IHis]; intros b0 Hin.
  - simpl. rewrite app_nil_r. reflexivity.
  - destruct (Hin i (or_introl eq_refl)) as [Hli Hir].
    cbn [foldM flat_map].
    rewrite (swap_Ret xs i l) by lia. cbn [bind].
    rewrite IH by (rewrite ?length_swapL; lia). cbn [bind].
    rewrite (swap_Ret (swapL xs i l) i l) by (rewrite length_swapL; lia).
    rewrite swapL_involutive by lia. cbn [bind].
    rewrite IHis by (intros j Hj; apply Hin; right; exact Hj).
    rewrite app_assoc. reflexivity.
Qed.

Lemma perm_out_Permutation f (xs : list A) l r p :
  In p (perm_out f xs l r) -> p ≡ₚ xs.
Proof.
  revert xs l. induction f as [|f IH]; intros xs l Hp; simpl in Hp; [contradiction|].
  apply in_app_or in Hp as [Hp|Hp].
  - destruct (l =? r)%N; simpl in Hp; [|contradiction].
    destruct Hp as [<-|[]]. reflexivity.
  - apply in_flat_map in Hp as (i & _ & Hp).
    etrans; [apply (IH _ _ Hp)|]. apply swapL_Permutation.
Qed.

Lemma permutations_Ret prof (xs : list A) :
  1 <= length xs -> (N.of_nat (length xs) <= usize_max)%N -> (prof = Dev -> length xs < 64) ->
  Utils.permutations prof xs = Ret (perm_out (S (length xs)) xs 0 (N.of_nat (length xs) - 1)).
Proof.
  intros H1 Hmax H64. unfold Utils.permutations.
  assert (Hpow : exists c, usize_pow prof 2 (N.of_nat (length xs) `mod` 2 ^ 32) = Ret c).
  { unfold usize_pow. destruct prof.
    - specialize (H64 eq_refl).
      rewrite N.mod_small by lia.
      assert (Hle : (2 ^ N.of_nat (length xs) <= 2 ^ 63)%N)
        by (apply N.pow_le_mono_r; lia).
      assert (Hle' : (2 ^ N.of_nat (length xs) <= usize_max)%N)
        by (etrans; [exact Hle|]; apply N.leb_le; vm_compute; reflexivity).
      apply N.leb_le in Hle'. rewrite Hle'. eauto.
    - destruct (_ <=? _)%N; eauto. }
  destruct Hpow as [c ->]. cbn [bind].
  unfold usize_sub. replace (1 <=? N.of_nat (length xs))%N with true
    by (symmetry; apply N.leb_le; lia). cbn [bind].
  rewrite (permutation_helper_spec prof (N.of_nat (length xs) - 1)); [reflexivity|lia..].
Qed.

Lemma permutation_helper_not_oof prof (r e : N) :
  usize_add prof r 1 = Ret e ->
  forall f (xs : list A) l buff, N.to_nat e - N.to_nat l < f ->
  Utils.permutation_helper prof f xs l r buff <> OutOfFuel.
Proof.
  intros He. pose proof (usize_add_le_max _ _ _ _ He) as Hemax.
  intros f. induction f as [|f IH]; intros xs l buff Hf; [lia|].
  cbn [Utils.permutation_helper]. rewrite He. cbn [bind].
  apply foldM_not_oof. intros [lst b] i Hi. apply range_In in Hi.
  apply bind_not_oof; [unfold Utils.swap; repeat case_match; discriminate|].
  intros lst' _. rewrite (usize_add_small prof l 1) by lia. cbn [bind].
  apply bind_not_oof; [apply IH; lia|].
  intros [lst'' b'] _. apply bind_not_oof; [unfold Utils.swap; repeat case_match; discriminate|].
  intros; discriminate.
Qed.

Lemma permutations_not_oof prof (xs : list A) : Utils.permutations prof xs <> OutOfFuel.
Proof.
  unfold Utils.permutations. apply bind_not_oof; [apply usize_pow_not_oof|]. intros c _.
  destruct (usize_sub prof (N.of_nat (length xs)) 1) as [r| |] eqn:Hr;
    cbn [bind]; [|discriminate|exfalso; revert Hr; apply usize_sub_not_oof].
  destruct (usize_add prof r 1) as [e| |] eqn:He;
    [|destruct (length xs); simpl; rewrite He; discriminate
     |exfalso; revert He; apply usize_add_not_oof].
  apply bind_not_oof; [|intros; discriminate].
  apply (permutation_helper_not_oof prof r e He).
  assert (Hle : (e <= N.of_nat (length xs))%N).
  { destruct (length xs) as [|n] eqn:Hn.
    - destruct prof; unfold usize_sub in Hr; simpl in Hr; [discriminate|].
      inversion Hr; subst. vm_compute in He. inversion He; subst. lia.
    - unfold usize_sub in Hr. replace (1 <=? N.of_nat (S n))%N with true in Hr
        by (symmetry; apply N.leb_le; lia).
      inversion Hr; subst. apply usize_add_le in He. lia. }
  lia.
Qed.

End Perms.

(* ------------------------------------------------------------------ *)
(** ** Counting and distinctness of the orderings *)

Section PermCount.
Context {A : Type}.
Implicit Types xs : list A.

Lemma perm_out_past f xs l r : (r < l)%N -> perm_out f xs l r = [].
Proof.
  intros H. destruct f; [reflexivity|]. cbn [perm_out].
  replace (l =? r)%N with false by (symmetry; apply N.eqb_neq; lia).
  replace (range l (r + 1)) with (@nil N)
    by (unfold range; replace (N.to_nat (r + 1 - l)) with 0 by lia; reflexivity).
  reflexivity.
Qed.

Lemma length_flat_map_const {B C} (g : B -> list C) L k :
  (forall i, In i L -> length (g i) = k) -> length (flat_map g L) = length L * k.
Proof.
  induction L as [|i L IH]; intros H; [reflexivity|]. simpl.
  rewrite length_app, H by (left; reflexivity). rewrite IH by (intros j Hj; apply H; right; exact Hj).
  reflexivity.
Qed.

(** [(r - l + 1)!] orderings. *)
Lemma length_perm_out f xs l r :
  (l <= r)%N -> N.to_nat (r - l) < f -> length (perm_out f xs l r) = fact (S (N.to_nat (r - l))).
Proof.
  revert xs l. induction f as [|f IH]; intros xs l Hlr Hf; [lia|].
  cbn [perm_out]. rewrite length_app. destruct (l =? r)%N eqn:E.
  - apply N.eqb_eq in E. subst l.
    replace (range r (r + 1)) with [r]
      by (unfold range; replace (N.to_nat (r + 1 - r)) with 1 by lia; simpl; f_equal; lia).
    simpl. rewrite perm_out_past by lia. replace (N.to_nat (r - r)) with 0 by lia. reflexivity.
  - apply N.eqb_neq in E. simpl.
    rewrite (length_flat_map_const _ _ (fact (S (N.to_nat (r - (l + 1)))))).
    + rewrite range_length.
      replace (N.to_nat (r + 1 - l)) with (S (S (N.to_nat (r - (l + 1))))) by lia.
      replace (N.to_nat (r - l)) with (S (N.to_nat (r - (l + 1)))) by lia.
      cbn [fact]. lia.
    + intros i _. apply IH; lia.
Qed.

(** The positions below [l] are never touched. *)
Lemma perm_out_prefix f xs l r p :
  In p (perm_out f xs l r) -> forall j, j < N.to_nat l -> p !! j = xs !! j.
Proof.
  revert xs l. induction f as [|f IH]; intros xs l Hp j Hj; [destruct Hp|].
  cbn [perm_out] in Hp. apply in_app_or in Hp as [Hp|Hp].
  - destruct (l =? r)%N; [|destruct Hp]. destruct Hp as [<-|[]]. reflexivity.
  - apply in_flat_map in Hp as (i & Hi & Hp). apply range_In in Hi.
    rewrite (IH _ _ Hp j) by lia. apply swapL_lookup_other; lia.
Qed.

Lemma NoDup_flat_map {B C} (g : B -> list C) L :
  NoDup L -> (forall i, In i L -> NoDup (g i)) ->
  (forall i i' p, In i L -> In i' L -> In p (g i) -> In p (g i') -> i = i') ->
  NoDup (flat_map g L).
Proof.
  induction L as [|i L IH]; intros HL Hg Hdis; simpl; [constructor|].
  apply NoDup_cons in HL as [HiL HL].
  apply NoDup_app. split; [apply Hg; left; reflexivity|]. split.
  - intros p Hp Hp'. apply list_elem_of_In in Hp, Hp'. apply in_flat_map in Hp' as (i' & Hi' & Hp').
    assert (i = i') as <- by (apply (Hdis i i' p); [left | right | |]; auto).
    apply HiL. apply list_elem_of_In. exact Hi'.
  - apply IH; [exact HL | intros j Hj; apply Hg; right; exact Hj|].
    intros j j' p Hj Hj'. apply Hdis; right; assumption.
Qed.

(** On an input without duplicates, the orderings are pairwise distinct. *)
Lemma NoDup_perm_out f xs l r :
  NoDup xs -> N.to_nat r < length xs -> NoDup (perm_out f xs l r).
Proof.
  revert xs l. induction f as [|f IH]; intros xs l Hxs Hr; [constructor|].
  destruct (N.lt_ge_cases r l) as [Hrl|Hlr]; [rewrite perm_out_past by lia; constructor|].
  cbn [perm_out]. destruct (l =? r)%N eqn:E.
  - apply N.eqb_eq in E. subst l.
    replace (range r (r + 1)) with [r]
      by (unfold range; replace (N.to_nat (r + 1 - r)) with 1 by lia; simpl; f_equal; lia).
    simpl. rewrite perm_out_past by lia. apply NoDup_singleton.
  - apply N.eqb_neq in E. simpl. apply NoDup_flat_map.
    + apply range_NoDup.
    + intros i Hi. apply range_In in Hi. apply IH; [|rewrite length_swapL; exact Hr].
      apply (NoDup_Permutation_proper _ _ (swapL_Permutation xs i l)). exact Hxs.
    + intros i i' p Hi Hi' Hp Hp'. apply range_In in Hi, Hi'.
      pose proof (perm_out_prefix _ _ _ _ _ Hp (N.to_nat l) ltac:(lia)) as E1.
      pose proof (perm_out_prefix _ _ _ _ _ Hp' (N.to_nat l) ltac:(lia)) as E2.
      rewrite swapL_lookup_l in E1, E2 by lia. rewrite E1 in E2.
      destruct (lookup_lt_is_Some_2 xs (N.to_nat i) ltac:(lia)) as [a Ha].
      rewrite Ha in E2. symmetry in E2.
      pose proof (NoDup_lookup xs _ _ a Hxs Ha E2). lia.
Qed.

End PermCount.

(* ------------------------------------------------------------------ *)
(** ** gcd *)

Lemma gcd_loop_spec f max min :
  (0 < min)%N -> N.to_nat min < f -> Utils.gcd_loop f max min = Ret (N.gcd max min).
Proof.
  revert max min. induction f as [|f IH]; intros max min Hmin Hf; [lia|].
  cbn [Utils.gcd_loop]. unfold usize_rem.
  replace (min =? 0)%N with false by (symmetry; apply N.eqb_neq; lia). cbn [bind].
  destruct (max `mod` min =? 0)%N eqn:E.
  - apply N.eqb_eq in E. f_equal.
    rewrite N.gcd_comm, <- N.Lcm0.gcd_mod. rewrite E. apply N.gcd_0_l.
  - apply N.eqb_neq in E.
    pose proof (N.mod_lt max min ltac:(lia)) as Hlt.
    rewrite N.gcd_comm, <- N.Lcm0.gcd_mod, N.gcd_comm.
    remember (max `mod` min)%N as res. apply IH; lia.
Qed.

Lemma gcd_not_oof x y : Utils.gcd x y <> OutOfFuel.
Proof.
  unfold Utils.gcd.
  assert (H : forall f max min, N.to_nat min < f -> Utils.gcd_loop f max min <> OutOfFuel).
  { induction f as [|f IH]; intros max min Hf; [lia|]. cbn [Utils.gcd_loop].
    unfold usize_rem. destruct (min =? 0)%N eqn:E; [discriminate|]. cbn [bind].
    apply N.eqb_neq in E. pose proof (N.mod_lt max min E).
    destruct (_ =? 0)%N; [discriminate|]. apply IH. lia. }
  destruct (x <? y)%N; apply H; lia.
Qed.

Lemma lcm_not_oof prof x y : Utils.lcm prof x y <> OutOfFuel.
Proof.
  unfold Utils.lcm. apply bind_not_oof; [apply usize_mul_not_oof|]. intros p _.
  apply bind_not_oof; [apply gcd_not_oof|]. intros g _. apply usize_div_not_oof.
Qed.

(* ------------------------------------------------------------------ *)
(** ** Registry *)

Lemma first_missing_None types l :
  first_missing types l = None <-> forall x, x ∈ l -> is_Some (types !! x).
Proof.
  induction l as [|y l IH]; simpl.
  - split; [intros _ x Hx; inversion Hx | reflexivity].
  - destruct (types !! y) eqn:Hy.
    + rewrite IH. split.
      * intros H x Hx. apply elem_of_cons in Hx as [->|Hx]; [rewrite Hy; eauto|auto].
      * intros H x Hx. apply H. apply elem_of_cons. auto.
    + split; [discriminate|]. intros H. exfalso.
      destruct (H y (proj2 (elem_of_cons _ _ _) (or_introl eq_refl))) as [? Hs]. congruence.
Qed.

Lemma first_missing_Some types l1 x l2 :
  (forall y, y ∈ l1 -> is_Some (types !! y)) -> types !! x = None ->
  first_missing types (l1 ++ x :: l2) = Some x.
Proof.
  induction l1 as [|y l1 IH]; intros Hl1 Hx; simpl.
  - rewrite Hx. reflexivity.
  - destruct (Hl1 y (proj2 (elem_of_cons _ _ _) (or_introl eq_refl))) as [t ->].
    apply IH; [|exact Hx]. intros z Hz. apply Hl1. apply elem_of_cons. right. exact Hz.
Qed.

Lemma check_new_type_Ok types name t :
  check_new_type types name t = Ok ->
  types !! name = None /\ forall x, x ∈ refs t -> is_Some (types !! x).
Proof.
  unfold check_new_type. destruct (types !! name); [discriminate|].
  intros H. split; [reflexivity|].
  destruct t as [a|s|u]; simpl in *.
  - intros x Hx. inversion Hx.
  - unfold check_compound in H. destruct (first_missing types (members s)) eqn:E;
      [discriminate|]. apply first_missing_None. exact E.
  - unfold check_compound in H. destruct (first_missing types (variants u)) eqn:E;
      [discriminate|]. apply first_missing_None. exact E.
Qed.

Lemma add_closed types name t : closed types -> closed (fst (add types name t)).
Proof.
  unfold add. destruct (check_new_type types name t) eqn:E; simpl; [|auto].
  apply check_new_type_Ok in E as [Hnew Hrefs].
  intros Hc k t' Hk x Hx. rewrite lookup_insert in Hk |- *.
  destruct (decide (name = k)) as [<-|Hne].
  - inversion Hk; subst. destruct (decide (name = x)); [eauto|]. apply Hrefs. exact Hx.
  - destruct (decide (name = x)); [eauto|]. eapply Hc; eassumption.
Qed.

Lemma reachable_closed types : reachable types -> closed types.
Proof.
  induction 1 as [|types name t _ IH].
  - intros k t Hk. unfold new in Hk. rewrite lookup_empty in Hk. discriminate.
  - apply add_closed. exact IH.
Qed.

Lemma in_list_max y l : In y l -> y <= list_max l.
Proof.
  intros Hy. pose proof (proj1 (list_max_le l (list_max l)) (le_n _)) as H.
  rewrite Forall_forall in H. apply H. apply list_elem_of_In. exact Hy.
Qed.

Lemma add_ranked types name t rank :
  closed types -> ranked types rank ->
  exists rank', ranked (fst (add types name t)) rank'.
Proof.
  intros Hc Hr. unfold add. destruct (check_new_type types name t) eqn:E; simpl; [|eauto].
  apply check_new_type_Ok in E as [Hnew Hrefs].
  exists (fun x => if decide (x = name) then S (list_max (map rank (refs t))) else rank x).
  intros k t' Hk x Hx. rewrite lookup_insert in Hk.
  destruct (decide (name = k)) as [<-|Hne].
  - inversion Hk; subst.
    assert (x <> name) by (intros ->; destruct (Hrefs name Hx) as [? Hs]; congruence).
    rewrite decide_False by assumption. rewrite decide_True by reflexivity.
    apply Nat.lt_succ_r. apply in_list_max. apply in_map. apply list_elem_of_In. exact Hx.
  - assert (x <> name) by (intros ->; destruct (Hc _ _ Hk _ Hx) as [? Hs]; congruence).
    rewrite !decide_False by congruence. eapply Hr; eassumption.
Qed.

Lemma reachable_ranked types : reachable types -> exists rank, ranked types rank.
Proof.
  intros Hreach. induction Hreach as [|types name t Hreach [rank IH]].
  - exists (fun _ => 0). intros k t Hk. unfold new in Hk. rewrite lookup_empty in Hk. discriminate.
  - eapply add_ranked; [apply reachable_closed; exact Hreach | exact IH].
Qed.

(* ------------------------------------------------------------------ *)
(** ** [unwrap], indexing and [mapM] *)

Lemma unwrap_Ret {A} (o : option A) a : unwrap o = Ret a -> o = Some a.
Proof. destruct o; simpl; intros H; inversion H; reflexivity. Qed.

Lemma unwrap_not_oof {A} (o : option A) : unwrap o <> OutOfFuel.
Proof. destruct o; discriminate. Qed.

Lemma index_not_oof {A} (l : list A) i : index l i <> OutOfFuel.
Proof. apply unwrap_not_oof. Qed.

Lemma index_Ret_In {A} (l : list A) i x : index l i = Ret x -> In x l.
Proof.
  unfold index. intros H. apply unwrap_Ret in H.
  apply list_elem_of_In. eapply list_elem_of_lookup_2. exact H.
Qed.

Lemma bind_unwrap_not_oof {A B} (o : option A) (k : A -> outcome B) :
  (forall a, o = Some a -> k a <> OutOfFuel) -> bind (unwrap o) k <> OutOfFuel.
Proof. destruct o; simpl; intros H; [apply H; reflexivity | discriminate]. Qed.

Lemma mapM_not_oof {A B} (f : A -> outcome B) l :
  (forall x, In x l -> f x <> OutOfFuel) -> mapM f l <> OutOfFuel.
Proof.
  induction l as [|x l IH]; intros Hf; simpl; [discriminate|].
  apply bind_not_oof; [apply Hf; left; reflexivity|]. intros y _.
  apply bind_not_oof; [apply IH; intros z Hz; apply Hf; right; exact Hz|].
  intros; discriminate.
Qed.

Lemma mapM_Ret_In {A B} (f : A -> outcome B) l l' :
  mapM f l = Ret l' -> forall y, In y l' -> exists x, In x l /\ f x = Ret y.
Proof.
  revert l'. induction l as [|x l IH]; intros l' H y Hy; simpl in H.
  - inversion H; subst. destruct Hy.
  - apply bind_eq_Ret in H as (y0 & Hy0 & H). apply bind_eq_Ret in H as (ys & Hys & H).
    inversion H; subst. destruct Hy as [Hy|Hy].
    + subst. exists x. split; [left; reflexivity | exact Hy0].
    + destruct (IH ys Hys y Hy) as (x' & Hx' & Hf). exists x'. split; [right; exact Hx' | exact Hf].
Qed.

(* ------------------------------------------------------------------ *)
(** ** The search of [get_optimal_layout] *)

Lemma keep_min_not_oof (lsize : TypeList -> outcome N) P acc :
  (forall tl, In tl P -> lsize tl <> OutOfFuel) -> foldM (keep_min lsize) P acc <> OutOfFuel.
Proof.
  intros H. apply foldM_not_oof. intros [mn lay] tl Htl. unfold keep_min.
  apply bind_not_oof; [apply H; exact Htl|]. intros c _. destruct (c <? mn)%N; discriminate.
Qed.

(** The result of the search is its initial value or a candidate with
    its size. *)
Lemma keep_min_Ret (lsize : TypeList -> outcome N) P acc best :
  foldM (keep_min lsize) P acc = Ret best ->
  best = acc \/ (In (snd best) P /\ lsize (snd best) = Ret (fst best)).
Proof.
  revert acc. induction P as [|tl P IH]; intros acc H; simpl in H.
  - inversion H; auto.
  - apply bind_eq_Ret in H as (acc' & Hstep & H).
    destruct (IH acc' H) as [->|[Hin Hl]]; [|right; split; [right; exact Hin | exact Hl]].
    destruct acc as [mn lay]. unfold keep_min in Hstep.
    apply bind_eq_Ret in Hstep as (c & Hc & Hstep).
    destruct (c <? mn)%N; inversion Hstep; subst; [right; simpl; auto | left; reflexivity].
Qed.

(* ------------------------------------------------------------------ *)
(** ** Unfolding the layout functions *)

Section Unfold.
Variable prof : Profile.
Variable m : TypeManager.

Lemma type_size_atomic f sp a : type_size prof m (S f) sp (TAtomic a) = Ret (representation a).
Proof. reflexivity. Qed.

Lemma type_align_atomic f ap a : type_align prof m (S f) ap (TAtomic a) = Ret (alignment a).
Proof. reflexivity. Qed.

Lemma type_size_unpacked f s :
  type_size prof m (S (S f)) Struct_unpacked_size (TStruct s) =
  foldM (member_place prof m (type_size prof m f Struct_unpacked_size)
                             (type_align prof m f Struct_unpacked_align)) (members s) 0%N.
Proof. reflexivity. Qed.

Lemma type_size_packed f s :
  type_size prof m (S (S f)) Struct_packed_size (TStruct s) =
  foldM (member_sum prof m (type_size prof m f Struct_packed_size)) (members s) 0%N.
Proof. reflexivity. Qed.

Lemma type_size_optimized f s :
  type_size prof m (S (S f)) Struct_optimized_size (TStruct s) =
  (res <- get_optimal_layout prof m f s ;; Ret (snd res)).
Proof. reflexivity. Qed.

Lemma get_optimal_layout_eq f s :
  get_optimal_layout prof m (S f) s =
  (permuts <- members_permutations prof s ;;
   best <- foldM (keep_min (fun typelist =>
                    foldM (member_place prof m (type_size prof m f Struct_optimized_size)
                                               (type_align prof m f Struct_optimized_align))
                          typelist 0%N))
                 permuts (usize_max, []) ;;
   Ret (snd best, fst best)).
Proof. reflexivity. Qed.

Lemma type_align_unpacked f s :
  type_align prof m (S (S f)) Struct_unpacked_align (TStruct s) =
  (first <- index (members s) 0 ;;
   my_type <- unwrap (m !! first) ;;
   type_align prof m f Struct_unpacked_align my_type).
Proof. reflexivity. Qed.

Lemma type_align_packed f s :
  type_align prof m (S (S f)) Struct_packed_align (TStruct s) =
  (first <- index (members s) 0 ;;
   my_type <- unwrap (m !! first) ;;
   type_align prof m f Struct_packed_align my_type).
Proof. reflexivity. Qed.

Lemma type_align_optimized f s :
  type_align prof m (S (S f)) Struct_optimized_align (TStruct s) =
  (res <- get_optimal_layout prof m f s ;;
   first <- index (fst res) 0 ;;
   my_type <- unwrap (m !! first) ;;
   type_align prof m f Struct_optimized_align my_type).
Proof. reflexivity. Qed.

Lemma type_size_union f sp u :
  type_size prof m (S (S f)) sp (TUnion u) =
  foldM (variant_max m (type_size prof m f sp)) (variants u) 0%N.
Proof. reflexivity. Qed.

Lemma type_align_union f ap u :
  type_align prof m (S (S f)) ap (TUnion u) =
  (last <- usize_sub prof (N.of_nat (length (variants u))) 1 ;;
   foldM (variant_lcm prof m (type_align prof m f ap) (variants u)) (range 0 last) 1%N).
Proof. reflexivity. Qed.

End Unfold.

(** The result of the search is no larger than its initial value and
    than the size of any candidate. *)
Lemma keep_min_min (lsize : TypeList -> outcome N) P acc best :
  foldM (keep_min lsize) P acc = Ret best ->
  (fst best <= fst acc)%N /\ forall tl c, In tl P -> lsize tl = Ret c -> (fst best <= c)%N.
Proof.
  revert acc. induction P as [|tl P IH]; intros acc H; simpl in H.
  - inversion H; subst. split; [lia | intros _ _ []].
  - apply bind_eq_Ret in H as (acc' & Hstep & H).
    destruct (IH acc' H) as [Hle Hmin].
    destruct acc as [mn lay]. unfold keep_min in Hstep.
    apply bind_eq_Ret in Hstep as (c & Hc & Hstep).
    assert (Hacc : (fst acc' <= mn)%N /\ (fst acc' <= c)%N)
      by (destruct (c <? mn)%N eqn:E; inversion Hstep; subst; simpl;
          [apply N.ltb_lt in E | apply N.ltb_ge in E]; lia).
    split; [simpl; lia|].
    intros tl' c' [<-|Htl'] Hc'.
    + rewrite Hc in Hc'. inversion Hc'; subst. lia.
    + apply (Hmin tl' c' Htl' Hc').
Qed.

Section Termination.
Variable prof : Profile.
Variable m : TypeManager.

Lemma place_not_oof cp size align : place prof cp size align <> OutOfFuel.
Proof.
  unfold place. apply bind_not_oof; [apply usize_rem_not_oof|]. intros r _.
  apply bind_not_oof; [|intros; apply usize_add_not_oof].
  destruct (r =? 0)%N; [discriminate|].
  apply bind_not_oof; [apply usize_sub_not_oof|]. intros; apply usize_add_not_oof.
Qed.

Lemma members_permutations_not_oof s : members_permutations prof s <> OutOfFuel.
Proof.
  unfold members_permutations. apply bind_not_oof; [apply permutations_not_oof|].
  intros P _. apply mapM_not_oof. intros tl _. apply mapM_not_oof. intros i _.
  apply index_not_oof.
Qed.

Lemma members_permutations_In s P :
  members_permutations prof s = Ret P -> forall tl x, In tl P -> In x tl -> In x (members s).
Proof.
  unfold members_permutations. intros H. apply bind_eq_Ret in H as (I & _ & H).
  intros tl x Htl Hx.
  destruct (mapM_Ret_In _ _ _ H tl Htl) as (is & _ & Htl').
  destruct (mapM_Ret_In _ _ _ Htl' x Hx) as (i & _ & Hi).
  eapply index_Ret_In. exact Hi.
Qed.

(** The layout chosen by [get_optimal_layout] is made of members. *)
Lemma get_optimal_layout_In f s res :
  get_optimal_layout prof m (S f) s = Ret res -> forall x, In x (fst res) -> In x (members s).
Proof.
  rewrite get_optimal_layout_eq. intros H. apply bind_eq_Ret in H as (P & HP & H).
  apply bind_eq_Ret in H as (best & Hbest & H). inversion H; subst. simpl.
  apply keep_min_Ret in Hbest as [->|[Hin _]]; [intros _ []|].
  intros x Hx. eapply members_permutations_In; eassumption.
Qed.

Section Body.
Variable G : nat.
Variable l : TypeList.
Hypothesis Hl : forall x y, In x l -> m !! x = Some y -> terminates prof m G y.

Lemma member_place_not_oof F sp ap cp x :
  In x l -> G <= F ->
  member_place prof m (type_size prof m F sp) (type_align prof m F ap) cp x <> OutOfFuel.
Proof.
  intros Hx HF. unfold member_place. apply bind_unwrap_not_oof. intros y Hy.
  destruct (Hl x y Hx Hy F HF sp ap) as [Hs Ha].
  apply bind_not_oof; [exact Hs|]. intros size _.
  apply bind_not_oof; [exact Ha|]. intros align _. apply place_not_oof.
Qed.

Lemma member_sum_not_oof F sp sum x :
  In x l -> G <= F -> member_sum prof m (type_size prof m F sp) sum x <> OutOfFuel.
Proof.
  intros Hx HF. unfold member_sum. apply bind_unwrap_not_oof. intros y Hy.
  destruct (Hl x y Hx Hy F HF sp Struct_packed_align) as [Hs _].
  apply bind_not_oof; [exact Hs|]. intros size _. apply usize_add_not_oof.
Qed.

Lemma variant_max_not_oof F sp maxi x :
  In x l -> G <= F -> variant_max m (type_size prof m F sp) maxi x <> OutOfFuel.
Proof.
  intros Hx HF. unfold variant_max. apply bind_unwrap_not_oof. intros y Hy.
  destruct (Hl x y Hx Hy F HF sp Struct_packed_align) as [Hs _].
  apply bind_not_oof; [exact Hs|]. intros; discriminate.
Qed.

Lemma variant_lcm_not_oof F ap lcm i :
  G <= F -> variant_lcm prof m (type_align prof m F ap) l lcm i <> OutOfFuel.
Proof.
  intros HF. unfold variant_lcm.
  apply bind_not_oof; [apply index_not_oof|]. intros v1 Hv1.
  apply bind_unwrap_not_oof. intros t1 Ht1.
  apply bind_not_oof; [apply (Hl v1 t1 (index_Ret_In _ _ _ Hv1) Ht1 F HF Struct_packed_size ap)|].
  intros size1 _. apply bind_not_oof; [apply usize_add_not_oof|]. intros i1 _.
  apply bind_not_oof; [apply index_not_oof|]. intros v2 Hv2.
  apply bind_unwrap_not_oof. intros t2 Ht2.
  apply bind_not_oof; [apply (Hl v2 t2 (index_Ret_In _ _ _ Hv2) Ht2 F HF Struct_packed_size ap)|].
  intros size2 _. apply lcm_not_oof.
Qed.

End Body.

Lemma get_optimal_layout_not_oof G F s :
  (forall x y, In x (members s) -> m !! x = Some y -> terminates prof m G y) -> G <= F ->
  get_optimal_layout prof m (S F) s <> OutOfFuel.
Proof.
  intros H HF. rewrite get_optimal_layout_eq.
  apply bind_not_oof; [apply members_permutations_not_oof|]. intros P HP.
  apply bind_not_oof; [|intros; discriminate].
  apply keep_min_not_oof. intros tl Htl. apply foldM_not_oof. intros acc x Hx.
  apply (member_place_not_oof G (members s) H); [|exact HF].
  eapply members_permutations_In; eassumption.
Qed.

(** If every type [t] refers to needs at most [G] fuel, [t] needs at most
    [3 + G]. *)
Lemma body_terminates G t :
  (forall x y, In x (refs t) -> m !! x = Some y -> terminates prof m G y) ->
  terminates prof m (3 + G) t.
Proof.
  intros H F HF sp ap.
  destruct F as [|[|[|F]]]; [lia..|].
  assert (HF' : G <= S F) by lia.
  destruct t as [a|s|u]; simpl in H.
  - split; discriminate.
  - split.
    + destruct sp; [rewrite type_size_unpacked | rewrite type_size_packed
                   | rewrite type_size_optimized].
      * apply foldM_not_oof. intros acc x Hx.
        apply (member_place_not_oof G (members s) H); [exact Hx | exact HF'].
      * apply foldM_not_oof. intros acc x Hx.
        apply (member_sum_not_oof G (members s) H); [exact Hx | exact HF'].
      * apply bind_not_oof; [|intros; discriminate].
        apply (get_optimal_layout_not_oof G); [exact H | lia].
    + destruct ap; [rewrite type_align_unpacked | rewrite type_align_packed
                   | rewrite type_align_optimized].
      * apply bind_not_oof; [apply index_not_oof|]. intros first Hf.
        apply bind_unwrap_not_oof. intros y Hy.
        apply (proj2 (H first y (index_Ret_In _ _ _ Hf) Hy (S F) HF' Struct_packed_size _)).
      * apply bind_not_oof; [apply index_not_oof|]. intros first Hf.
        apply bind_unwrap_not_oof. intros y Hy.
        apply (proj2 (H first y (index_Ret_In _ _ _ Hf) Hy (S F) HF' Struct_packed_size _)).
      * apply bind_not_oof; [apply (get_optimal_layout_not_oof G); [exact H | lia]|].
        intros res Hres.
        apply bind_not_oof; [apply index_not_oof|]. intros first Hf.
        apply bind_unwrap_not_oof. intros y Hy.
        refine (proj2 (H first y _ Hy (S F) HF' Struct_packed_size Struct_optimized_align)).
        eapply get_optimal_layout_In; [exact Hres|]. eapply index_Ret_In. exact Hf.
  - split.
    + rewrite type_size_union. apply foldM_not_oof. intros acc x Hx.
      apply (variant_max_not_oof G (variants u) H); [exact Hx | exact HF'].
    + rewrite type_align_union.
      apply bind_not_oof; [apply usize_sub_not_oof|]. intros last _.
      apply foldM_not_oof. intros acc i _.
      apply (variant_lcm_not_oof G (variants u) H). exact HF'.
Qed.

Lemma ranked_terminates rank :
  ranked m rank -> forall n k t, rank k < n -> m !! k = Some t -> terminates prof m (3 * n) t.
Proof.
  intros Hr n. induction n as [|n IH]; intros k t Hk Ht; [lia|].
  replace (3 * S n) with (3 + 3 * n) by lia.
  apply body_terminates. intros x y Hx Hy.
  apply (IH x y); [|exact Hy].
  pose proof (Hr k t Ht x (proj2 (list_elem_of_In _ _) Hx)). lia.
Qed.

End Termination.

(* ------------------------------------------------------------------ *)
(** ** Orderings produced for [members_permutations] *)

Lemma permutations_Dev_Ret {A} (xs : list A) P :
  Utils.permutations Dev xs = Ret P ->
  1 <= length xs /\ P = perm_out (S (length xs)) xs 0 (N.of_nat (length xs) - 1).
Proof.
  unfold Utils.permutations. intros H.
  apply bind_eq_Ret in H as (c & _ & H).
  apply bind_eq_Ret in H as (r & Hr & H).
  apply usize_sub_Dev in Hr as [-> Hle].
  apply bind_eq_Ret in H as (res & Hres & H). inversion H; subst.
  assert (Hr1 : (N.of_nat (length xs) - 1 + 1 <= usize_max)%N).
  { destruct (N.of_nat (length xs) - 1 + 1 <=? usize_max)%N eqn:E; [apply N.leb_le; exact E|].
    exfalso. cbn [Utils.permutation_helper] in Hres. unfold usize_add in Hres.
    rewrite E in Hres. discriminate Hres. }
  rewrite (permutation_helper_spec Dev _ Hr1) in Hres; [|lia..].
  inversion Hres; subst. split; [lia | reflexivity].
Qed.

Lemma swapL_same {A} (xs : list A) l : N.to_nat l < length xs -> swapL xs l l = xs.
Proof.
  intros Hl. unfold swapL. destruct (lookup_lt_is_Some_2 xs _ Hl) as [a Ha]. rewrite Ha.
  rewrite (list_insert_id xs) by exact Ha. apply list_insert_id. exact Ha.
Qed.

(** The first ordering is the input itself (every swap is [swap(l, l)]). *)
Lemma perm_out_id {A} f (xs : list A) l r :
  (l <= r)%N -> N.to_nat r < length xs -> N.to_nat (r - l) < f -> In xs (perm_out f xs l r).
Proof.
  revert l. induction f as [|f IH]; intros l Hlr Hr Hf; [lia|].
  cbn [perm_out]. apply in_or_app. destruct (l =? r)%N eqn:E; [left; left; reflexivity|].
  apply N.eqb_neq in E. right. apply in_flat_map. exists l. split; [apply range_In; lia|].
  rewrite swapL_same by lia. apply IH; lia.
Qed.

Lemma mapM_In_Ret {A B} (f : A -> outcome B) l l' x :
  mapM f l = Ret l' -> In x l -> exists y, In y l' /\ f x = Ret y.
Proof.
  revert l'. induction l as [|z l IH]; intros l' H Hx; [destruct Hx|]. simpl in H.
  apply bind_eq_Ret in H as (y0 & Hy0 & H). apply bind_eq_Ret in H as (ys & Hys & H).
  inversion H; subst. destruct Hx as [<-|Hx].
  - exists y0. split; [left; reflexivity | exact Hy0].
  - destruct (IH ys Hys Hx) as (y & Hy & Hf). exists y. split; [right; exact Hy | exact Hf].
Qed.

Lemma mapM_Permutation {A B} (f : A -> outcome B) l1 l2 :
  l1 ≡ₚ l2 -> forall r1, mapM f l1 = Ret r1 -> exists r2, mapM f l2 = Ret r2 /\ r1 ≡ₚ r2.
Proof.
  induction 1 as [|x l1 l2 _ IH|x y l|l1 l2 l3 _ IH1 _ IH2]; intros r1 H.
  - exists r1. split; [exact H | reflexivity].
  - simpl in H. apply bind_eq_Ret in H as (v & Hv & H). apply bind_eq_Ret in H as (vs & Hvs & H).
    inversion H; subst. destruct (IH vs Hvs) as (vs' & Hvs' & Hp).
    exists (v :: vs'). simpl. rewrite Hv, Hvs'. split; [reflexivity | apply perm_skip, Hp].
  - simpl in H. apply bind_eq_Ret in H as (v & Hv & H). apply bind_eq_Ret in H as (vs & Hvs & H).
    apply bind_eq_Ret in Hvs as (w & Hw & Hvs). apply bind_eq_Ret in Hvs as (ws & Hws & Hvs).
    inversion H; inversion Hvs; subst.
    exists (w :: v :: ws). simpl. rewrite Hv, Hw, Hws. split; [reflexivity | apply perm_swap].
  - destruct (IH1 r1 H) as (r2 & H2 & P12). destruct (IH2 r2 H2) as (r3 & H3 & P23).
    exists r3. split; [exact H3 | etrans; eassumption].
Qed.

Lemma mapM_index_seq {A} (l1 l2 : list A) :
  mapM (index (l1 ++ l2)) (map (fun k => (0 + N.of_nat k)%N) (seq (length l1) (length l2))) =
  Ret l2.
Proof.
  revert l1. induction l2 as [|x l2 IH]; intros l1; [reflexivity|].
  cbn [length seq map mapM].
  assert (Hx : index (l1 ++ x :: l2) (0 + N.of_nat (length l1)) = Ret x).
  { unfold index. replace (N.to_nat (0 + N.of_nat (length l1))) with (length l1) by lia.
    rewrite list_lookup_middle by reflexivity. reflexivity. }
  rewrite Hx. cbn [bind].
  specialize (IH (l1 ++ [x])). rewrite <- app_assoc in IH. simpl in IH.
  rewrite length_app in IH. simpl in IH. replace (length l1 + 1) with (S (length l1)) in IH by lia.
  rewrite IH. reflexivity.
Qed.

(** [members[i]] for [i] in [0..len] gives back the members. *)
Lemma mapM_index_range {A} (l : list A) :
  mapM (index l) (range 0 (N.of_nat (length l))) = Ret l.
Proof.
  unfold range. replace (N.to_nat (N.of_nat (length l) - 0)) with (length l) by lia.
  apply (mapM_index_seq [] l).
Qed.

Lemma members_permutations_Permutation s P :
  members_permutations Dev s = Ret P -> forall tl, In tl P -> tl ≡ₚ members s.
Proof.
  unfold members_permutations. intros H tl Htl.
  apply bind_eq_Ret in H as (I & HI & HP).
  apply permutations_Dev_Ret in HI as [_ ->].
  destruct (mapM_Ret_In _ _ _ HP tl Htl) as (is & His & Htl').
  apply perm_out_Permutation in His.
  destruct (mapM_Permutation _ _ _ His _ Htl') as (tl' & Htl'' & Hp).
  rewrite mapM_index_range in Htl''. inversion Htl''; subst. exact Hp.
Qed.

(** The declaration order is one of the candidates. *)
Lemma members_permutations_id s P :
  members_permutations Dev s = Ret P -> In (members s) P.
Proof.
  unfold members_permutations. intros H.
  apply bind_eq_Ret in H as (I & HI & HP).
  apply permutations_Dev_Ret in HI as [Hn ->]. rewrite range_length in Hn.
  destruct (mapM_In_Ret _ _ _ (range 0 (N.of_nat (length (members s)))) HP) as (y & Hy & Hmap).
  - apply perm_out_id; rewrite ?range_length; lia.
  - rewrite mapM_index_range in Hmap. inversion Hmap; subst. exact Hy.
Qed.

Lemma permutations_perm_out {A} prof (xs : list A) P :
  1 <= length xs -> (N.of_nat (length xs) <= usize_max)%N ->
  Utils.permutations prof xs = Ret P ->
  P = perm_out (S (length xs)) xs 0 (N.of_nat (length xs) - 1).
Proof.
  intros H1 Hmax H. destruct prof.
  - apply permutations_Dev_Ret in H as [_ ->]. reflexivity.
  - rewrite permutations_Ret in H by (discriminate || lia). inversion H. reflexivity.
Qed.

(** The search keeps its current best unless a candidate is strictly
    smaller. *)
Lemma keep_min_stays (lsize : TypeList -> outcome N) P acc best :
  foldM (keep_min lsize) P acc = Ret best -> best = acc \/ (fst best < fst acc)%N.
Proof.
  revert acc. induction P as [|tl P IH]; intros acc H; simpl in H.
  - inversion H; auto.
  - apply bind_eq_Ret in H as (acc' & Hstep & H).
    destruct acc as [mn lay]. unfold keep_min in Hstep.
    apply bind_eq_Ret in Hstep as (c & Hc & Hstep).
    destruct (c <? mn)%N eqn:E; inversion Hstep; subst.
    + apply N.ltb_lt in E. right. destruct (IH _ H) as [->|Hlt]; simpl in *; lia.
    + apply IH. exact H.
Qed.


(* ------------------------------------------------------------------ *)
(** ** Sizes with overflow checks *)

Lemma sumN_Permutation l1 l2 : l1 ≡ₚ l2 -> sumN l1 = sumN l2.
Proof. induction 1; simpl; lia. Qed.

Lemma sumN_map_le {A} (g1 g2 : A -> N) l :
  (forall x, In x l -> (g1 x <= g2 x)%N) -> (sumN (map g1 l) <= sumN (map g2 l))%N.
Proof.
  induction l as [|x l IH]; intros H; simpl; [lia|].
  pose proof (H x (or_introl eq_refl)). pose proof (IH (fun y Hy => H y (or_intror Hy))). lia.
Qed.

Lemma foldM_agree {A B} (f1 f2 : B -> A -> outcome B) l a r1 r2 :
  (forall acc x r r', In x l -> f1 acc x = Ret r -> f2 acc x = Ret r' -> r = r') ->
  foldM f1 l a = Ret r1 -> foldM f2 l a = Ret r2 -> r1 = r2.
Proof.
  revert a. induction l as [|x l IH]; intros a H H1 H2; simpl in H1, H2.
  - inversion H1; inversion H2; subst; reflexivity.
  - apply bind_eq_Ret in H1 as (b1 & S1 & H1). apply bind_eq_Ret in H2 as (b2 & S2 & H2).
    pose proof (H a x b1 b2 (or_introl eq_refl) S1 S2); subst.
    eapply IH; [|exact H1|exact H2]. intros acc y r r' Hy. apply H. right. exact Hy.
Qed.

Lemma keep_min_all_Ret (lsize : TypeList -> outcome N) P acc best :
  foldM (keep_min lsize) P acc = Ret best -> forall tl, In tl P -> exists c, lsize tl = Ret c.
Proof.
  revert acc. induction P as [|tl P IH]; intros acc H tl' Htl'; [destruct Htl'|]. simpl in H.
  apply bind_eq_Ret in H as (acc' & Hstep & H).
  destruct Htl' as [<-|Htl']; [|eapply IH; eassumption].
  destruct acc as [mn lay]. unfold keep_min in Hstep.
  apply bind_eq_Ret in Hstep as (c & Hc & _). eauto.
Qed.

Lemma place_Dev cp size align r : place Dev cp size align = Ret r -> (cp + size <= r)%N.
Proof.
  unfold place. intros H. apply bind_eq_Ret in H as (rem & Hrem & H).
  apply bind_eq_Ret in H as (cp' & Hcp' & H).
  apply usize_add_Dev in H as [-> _].
  destruct (rem =? 0)%N.
  - inversion Hcp'; subst. lia.
  - apply bind_eq_Ret in Hcp' as (d & Hd & Hcp'). apply usize_add_Dev in Hcp' as [-> _]. lia.
Qed.

Section Sizes.
Variable m : TypeManager.

(** [packed_size] is the sum of the members' sizes. *)
Lemma member_sum_fold_Dev tsize l a r :
  foldM (member_sum Dev m tsize) l a = Ret r ->
  r = (a + sumN (map (size_of m tsize) l))%N /\ ((a <= usize_max)%N -> (r <= usize_max)%N) /\
  forall x, In x l -> exists ty, m !! x = Some ty /\ tsize ty = Ret (size_of m tsize x).
Proof.
  revert a. induction l as [|x l IH]; intros a H; simpl in H.
  - inversion H; subst. simpl. split; [lia|]. split; [auto | intros _ []].
  - apply bind_eq_Ret in H as (a' & Hstep & H).
    unfold member_sum in Hstep.
    apply bind_eq_Ret in Hstep as (ty & Hty & Hstep). apply unwrap_Ret in Hty.
    apply bind_eq_Ret in Hstep as (v & Hv & Hstep).
    apply usize_add_Dev in Hstep as [-> Hmax].
    destruct (IH _ H) as (-> & Hb & Hall).
    assert (Hsx : size_of m tsize x = v) by (unfold size_of; rewrite Hty, Hv; reflexivity).
    simpl. rewrite Hsx. split; [lia|]. split; [intros _; apply Hb; exact Hmax|].
    intros y [<-|Hy]; [|apply Hall; exact Hy].
    exists ty. split; [exact Hty | rewrite Hsx; exact Hv].
Qed.

(** A layout is at least the sum of the members' sizes. *)
Lemma member_place_fold_Dev tsize talign l a r :
  foldM (member_place Dev m tsize talign) l a = Ret r ->
  (a + sumN (map (size_of m tsize) l) <= r)%N /\
  forall x, In x l -> exists ty, m !! x = Some ty /\ tsize ty = Ret (size_of m tsize x).
Proof.
  revert a. induction l as [|x l IH]; intros a H; simpl in H.
  - inversion H; subst. simpl. split; [lia | intros _ []].
  - apply bind_eq_Ret in H as (a' & Hstep & H).
    unfold member_place in Hstep.
    apply bind_eq_Ret in Hstep as (ty & Hty & Hstep). apply unwrap_Ret in Hty.
    apply bind_eq_Ret in Hstep as (v & Hv & Hstep).
    apply bind_eq_Ret in Hstep as (al & Hal & Hstep).
    apply place_Dev in Hstep.
    destruct (IH _ H) as (Hle & Hall).
    assert (Hsx : size_of m tsize x = v) by (unfold size_of; rewrite Hty, Hv; reflexivity).
    simpl. rewrite Hsx. split; [lia|].
    intros y [<-|Hy]; [|apply Hall; exact Hy].
    exists ty. split; [exact Hty | rewrite Hsx; exact Hv].
Qed.

Lemma variant_max_fold_le tsize1 tsize2 l a b r q :
  (forall x ty v w, In x l -> m !! x = Some ty -> tsize1 ty = Ret v -> tsize2 ty = Ret w ->
     (w <= v)%N) ->
  foldM (variant_max m tsize1) l a = Ret r -> foldM (variant_max m tsize2) l b = Ret q ->
  (b <= a)%N -> (q <= r)%N.
Proof.
  revert a b. induction l as [|x l IH]; intros a b Hle H1 H2 Hab; simpl in H1, H2.
  - inversion H1; inversion H2; subst. exact Hab.
  - apply bind_eq_Ret in H1 as (a' & S1 & H1). apply bind_eq_Ret in H2 as (b' & S2 & H2).
    unfold variant_max in S1, S2.
    apply bind_eq_Ret in S1 as (ty & Hty & S1). apply bind_eq_Ret in S1 as (v & Hv & S1).
    apply bind_eq_Ret in S2 as (ty' & Hty' & S2). apply bind_eq_Ret in S2 as (w & Hw & S2).
    apply unwrap_Ret in Hty, Hty'. assert (ty' = ty) by congruence. subst ty'.
    inversion S1; inversion S2; subst.
    apply (IH _ _ (fun x' ty v w Hx => Hle x' ty v w (or_intror Hx)) H1 H2).
    pose proof (Hle x ty v w (or_introl eq_refl) Hty Hv Hw). lia.
Qed.

(** With overflow checks, the packed size of a type is at most its size
    in any packing mode. *)
Lemma packed_le_size n :
  forall f1 f2 sp t o p, f1 < n ->
  type_size Dev m f1 sp t = Ret o -> type_size Dev m f2 Struct_packed_size t = Ret p ->
  (p <= o)%N.
Proof.
  induction n as [|n IH]; intros f1 f2 sp t o p Hf H1 H2; [lia|].
  destruct t as [a|s|u].
  - destruct f1; [discriminate|]. destruct f2; [discriminate|].
    rewrite type_size_atomic in H1, H2. inversion H1; inversion H2; subst. lia.
  - destruct f1 as [|[|f1]]; [discriminate H1 | destruct sp; discriminate H1 |].
    destruct f2 as [|[|f2]]; [discriminate H2 | discriminate H2 |].
    rewrite type_size_packed in H2.
    apply member_sum_fold_Dev in H2 as (-> & Hpmax & Hpall).
    assert (Hpt : forall g sp' x, g < n -> In x (members s) ->
              (exists ty, m !! x = Some ty /\
                 type_size Dev m g sp' ty = Ret (size_of m (type_size Dev m g sp') x)) ->
              (size_of m (type_size Dev m f2 Struct_packed_size) x <=
               size_of m (type_size Dev m g sp') x)%N).
    { intros g sp' x Hg Hx (ty & Hty & Hv). destruct (Hpall x Hx) as (ty' & Hty' & Hw).
      rewrite Hty in Hty'. inversion Hty'; subst. eapply IH; [exact Hg | exact Hv | exact Hw]. }
    destruct sp.
    + rewrite type_size_unpacked in H1.
      apply member_place_fold_Dev in H1 as (Hle & Hall).
      etrans; [|exact Hle]. apply N.add_le_mono_l. apply sumN_map_le.
      intros x Hx. apply Hpt; [lia | exact Hx | apply Hall; exact Hx].
    + rewrite type_size_packed in H1.
      apply member_sum_fold_Dev in H1 as (-> & _ & Hall).
      apply N.add_le_mono_l. apply sumN_map_le.
      intros x Hx. apply Hpt; [lia | exact Hx | apply Hall; exact Hx].
    + rewrite type_size_optimized in H1. destruct f1 as [|f1]; [discriminate H1|].
      apply bind_eq_Ret in H1 as (res & Hgol & H1). inversion H1; subst.
      rewrite get_optimal_layout_eq in Hgol.
      apply bind_eq_Ret in Hgol as (P & HP & Hgol).
      apply bind_eq_Ret in Hgol as (best & Hbest & Hgol). inversion Hgol; subst. simpl.
      destruct (keep_min_Ret _ _ _ _ Hbest) as [->|[Hin Hl]].
      * simpl. apply Hpmax. lia.
      * apply member_place_fold_Dev in Hl as (Hle & Hall).
        pose proof (members_permutations_Permutation s P HP _ Hin) as Hperm.
        rewrite (sumN_Permutation _ _ (Permutation_map _ (Permutation_sym Hperm))).
        etrans; [|exact Hle]. apply N.add_le_mono_l. apply sumN_map_le.
        intros x Hx. apply Hpt; [lia | | apply Hall; exact Hx].
        apply (Permutation_in _ Hperm Hx).
  - destruct f1 as [|[|f1]]; [discriminate H1 | discriminate H1 |].
    destruct f2 as [|[|f2]]; [discriminate H2 | discriminate H2 |].
    rewrite type_size_union in H1, H2.
    refine (variant_max_fold_le _ _ _ _ _ _ _ _ H1 H2 ltac:(lia)).
    intros x ty v w _ _ Hv Hw. eapply IH; [|exact Hv|exact Hw]. lia.
Qed.

Lemma type_size_atomic_Ret prof g sp a v :
  type_size prof m g sp (TAtomic a) = Ret v -> v = representation a.
Proof. destruct g; [discriminate|]. rewrite type_size_atomic. intros H; inversion H; reflexivity. Qed.

Lemma type_align_atomic_Ret prof g ap a v :
  type_align prof m g ap (TAtomic a) = Ret v -> v = alignment a.
Proof. destruct g; [discriminate|]. rewrite type_align_atomic. intros H; inversion H; reflexivity. Qed.

(** On an atomic member, every packing mode places the same bytes. *)
Lemma member_place_atomic prof g1 g2 sp1 sp2 ap1 ap2 acc x a r r' :
  m !! x = Some (TAtomic a) ->
  member_place prof m (type_size prof m g1 sp1) (type_align prof m g1 ap1) acc x = Ret r ->
  member_place prof m (type_size prof m g2 sp2) (type_align prof m g2 ap2) acc x = Ret r' ->
  r = r'.
Proof.
  intros Hx H1 H2. unfold member_place in H1, H2. rewrite Hx in H1, H2. cbn [unwrap bind] in H1, H2.
  apply bind_eq_Ret in H1 as (v1 & Hv1 & H1). apply bind_eq_Ret in H1 as (w1 & Hw1 & H1).
  apply bind_eq_Ret in H2 as (v2 & Hv2 & H2). apply bind_eq_Ret in H2 as (w2 & Hw2 & H2).
  apply type_size_atomic_Ret in Hv1, Hv2. apply type_align_atomic_Ret in Hw1, Hw2. subst.
  congruence.
Qed.

End Sizes.

Lemma register_reachable l : reachable (Examples.register l).
Proof.
  unfold Examples.register. generalize new reachable_new. revert l.
  induction l as [|[n t] l IH]; intros m Hm; simpl; [exact Hm|].
  apply IH. apply reachable_add. exact Hm.
Qed.

Lemma reachable_valid m : reachable m -> forall k t, m !! k = Some t -> valid_type t.
Proof.
  induction 1 as [|types name t _ IH]; intros k t' Hk.
  - unfold new in Hk. rewrite lookup_empty in Hk. discriminate.
  - unfold add in Hk. destruct (check_new_type types name t) eqn:E; simpl in Hk; [|eauto].
    rewrite lookup_insert in Hk. destruct (decide (name = k)) as [<-|]; [|eauto].
    inversion Hk; subst t'. unfold check_new_type in E.
    destruct (types !! name); [discriminate|].
    destruct t as [a|s|u]; simpl.
    + destruct (representation a =? 0)%N eqn:E1; [discriminate|].
      destruct (alignment a =? 0)%N eqn:E2; [discriminate|].
      apply N.eqb_neq in E1, E2. lia.
    + unfold check_compound in E. destruct (first_missing types (members s)); [discriminate|].
      destruct (members s); [discriminate | discriminate].
    + unfold check_compound in E. destruct (first_missing types (variants u)); [discriminate|].
      destruct (variants u); [discriminate | discriminate].
Qed.

(* ================================================================== *)
(** ** The claims *)

Import Examples.

(** C1: the alignment of a union is not the lcm of all of its variants'
    alignments. [Union::align] overwrites [lcm] with the lcm of each
    adjacent pair, so it returns the lcm of the last two variants: for
    variants of alignments 4, 2, 3 it returns [lcm(2, 3) = 6], in every
    profile and packing mode, while the lcm of all three is 12. *)
Theorem union_align_last_pair :
  union_types !! "u" = Some (TUnion u_abc) /\
  (forall prof ap, type_align prof union_types 10 ap (TUnion u_abc) = Ret 6%N) /\
  N.lcm 4 (N.lcm 2 3) = 12%N.
Proof.
  split; [vm_compute; reflexivity|]. split; [|reflexivity].
  intros [] []; vm_compute; reflexivity.
Qed.

(** C2 (counterexample): [gcd(0, 4)] and [gcd(4, 0)] take a remainder by
    zero and panic. *)
Lemma gcd_zero_panics : Utils.gcd 0 4 = Panic /\ Utils.gcd 4 0 = Panic.
Proof. vm_compute. split; reflexivity. Qed.

(** C2 (amended): on positive inputs [gcd] returns the greatest common
    divisor, with no division by zero; when an input is zero it computes
    a remainder by zero and panics. *)
Theorem gcd_spec x y :
  ((x = 0 \/ y = 0)%N -> Utils.gcd x y = Panic) /\
  ((0 < x)%N -> (0 < y)%N -> Utils.gcd x y = Ret (N.gcd x y)).
Proof.
  unfold Utils.gcd. split.
  - intros Hz. destruct (x <? y)%N eqn:E.
    + apply N.ltb_lt in E. assert (x = 0%N) as -> by lia.
      simpl. unfold usize_rem. simpl. reflexivity.
    + apply N.ltb_ge in E. assert (y = 0%N) as -> by lia.
      simpl. unfold usize_rem. simpl. reflexivity.
  - intros Hx Hy. destruct (x <? y)%N eqn:E.
    + rewrite gcd_loop_spec by lia. rewrite N.gcd_comm. reflexivity.
    + rewrite gcd_loop_spec by lia. reflexivity.
Qed.

Lemma gcd_spec_witness :
  Utils.gcd 0 6 = Panic /\ Utils.gcd 12 18 = Ret 6%N.
Proof.
  split.
  - apply (proj1 (gcd_spec 0 6)). left. reflexivity.
  - apply (proj2 (gcd_spec 12 18)); vm_compute; reflexivity.
Defined.

(** C3: on an empty list, [permutations] computes [len() - 1] on [0]:
    with overflow checks (the profile of [cargo test]) it panics, so the
    crate's own [test_permutations_empty] fails; only without overflow
    checks does it return the empty list of orderings. On a one-element
    list it returns exactly that list, and on a list of length [n >= 1]
    (below 64 with overflow checks, where [2usize.pow(n)] must not
    overflow) it returns [n!] orderings, each a permutation of the
    input, pairwise distinct when the input has no duplicates. *)
Theorem permutations_empty_panics :
  Utils.permutations Dev ([] : list nat) = Panic /\
  Utils.permutations Release ([] : list nat) = Ret [] /\
  (forall prof A (x : A), Utils.permutations prof [x] = Ret [[x]]) /\
  (forall prof A (xs : list A),
     1 <= length xs -> (N.of_nat (length xs) <= usize_max)%N -> (prof = Dev -> length xs < 64) ->
     exists P, Utils.permutations prof xs = Ret P /\ length P = fact (length xs) /\
       (forall p, In p P -> p ≡ₚ xs) /\ (NoDup xs -> NoDup P)).
Proof.
  split; [vm_compute; reflexivity|]. split; [vm_compute; reflexivity|].
  split; [intros [] A x; reflexivity|].
  intros prof A xs H1 Hmax H64.
  eexists. split; [exact (permutations_Ret prof xs H1 Hmax H64)|]. split; [|split].
  - rewrite length_perm_out by lia. f_equal. lia.
  - intros p Hp. eapply perm_out_Permutation. exact Hp.
  - intros Hxs. apply NoDup_perm_out; [exact Hxs | lia].
Qed.

(** C4: with [int] (size 4, align 4) and [char] (size 1, align 4),
    [s1 = [int, char]] has unpacked, packed and optimized size 5, and
    [s2 = [char, int]] has unpacked size 8, packed size 5 and optimized
    size 5, in both profiles. *)
Theorem readme_sizes :
  forall prof,
  int_char_s !! "s1" = Some (TStruct s1) /\ int_char_s !! "s2" = Some (TStruct s2) /\
  type_size prof int_char_s 10 Struct_unpacked_size (TStruct s1) = Ret 5%N /\
  type_size prof int_char_s 10 Struct_packed_size (TStruct s1) = Ret 5%N /\
  type_size prof int_char_s 10 Struct_optimized_size (TStruct s1) = Ret 5%N /\
  type_size prof int_char_s 10 Struct_unpacked_size (TStruct s2) = Ret 8%N /\
  type_size prof int_char_s 10 Struct_packed_size (TStruct s2) = Ret 5%N /\
  type_size prof int_char_s 10 Struct_optimized_size (TStruct s2) = Ret 5%N.
Proof. intros []; vm_compute; repeat split. Qed.

(** C6: in every registry built by [new] and [add], every member or
    variant name of a stored type is a stored name, and [add] preserves
    this. *)
Theorem registry_closed m :
  reachable m -> closed m /\ forall k t, closed (fst (add m k t)).
Proof.
  intros Hm. pose proof (reachable_closed m Hm) as Hc. split; [exact Hc|].
  intros k t. apply add_closed. exact Hc.
Qed.

Lemma registry_closed_witness : closed int_char_s.
Proof. apply (registry_closed int_char_s (register_reachable _)). Defined.

(** C8 (counterexample): registering an empty struct under a name that
    is already registered fails with [TypeRedefinition], not
    [EmptyCompoundType]. *)
Lemma empty_redefinition_counterexample :
  add int_char "int" (TStruct {| members := [] |}) = (int_char, Err TypeRedefinition).
Proof. vm_compute. reflexivity. Qed.

(** C8 (amended): for a struct or union registered under a name not yet
    in the registry: an empty list gives [EmptyCompoundType]; otherwise
    the first missing name [x] gives [TypeDoesNotExist x]; otherwise the
    type is stored. A failed registration leaves the registry unchanged. *)
Theorem compound_registration m name t l :
  m !! name = None ->
  (t = TStruct {| members := l |} \/ t = TUnion {| variants := l |}) ->
  (l = [] -> add m name t = (m, Err EmptyCompoundType)) /\
  (forall l1 x l2, l = l1 ++ x :: l2 -> (forall y, y ∈ l1 -> is_Some (m !! y)) ->
     m !! x = None -> add m name t = (m, Err (TypeDoesNotExist x))) /\
  ((forall y, y ∈ l -> is_Some (m !! y)) -> l <> [] -> add m name t = (<[name := t]> m, Ok)).
Proof.
  intros Hname Ht.
  assert (Hchk : check_new_type m name t = check_compound m l)
    by (unfold check_new_type; rewrite Hname; destruct Ht as [-> | ->]; reflexivity).
  unfold add. rewrite Hchk. unfold check_compound. split; [|split].
  - intros ->. reflexivity.
  - intros l1 x l2 -> Hl1 Hx. rewrite (first_missing_Some m l1 x l2 Hl1 Hx). reflexivity.
  - intros Hall Hne. apply first_missing_None in Hall. rewrite Hall.
    destruct l; [congruence|reflexivity].
Qed.

Lemma compound_registration_witness :
  add int_char "s" (TStruct {| members := ["char"; "x"; "y"] |}) =
    (int_char, Err (TypeDoesNotExist "x")).
Proof.
  apply (proj1 (proj2 (compound_registration int_char "s"
           (TStruct {| members := ["char"; "x"; "y"] |}) ["char"; "x"; "y"]
           ltac:(vm_compute; reflexivity) (or_introl eq_refl)))
           ["char"] "x" ["y"] eq_refl).
  - intros y Hy. apply list_elem_of_singleton in Hy. subst. vm_compute. eauto.
  - vm_compute. reflexivity.
Defined.

(** C9: a union with a single variant has alignment 1 in both profiles
    and every packing mode: [0..len-1] is empty and [lcm] keeps its
    initial value 1. *)
Theorem single_variant_align prof m fuel ap u x :
  variants u = [x] -> type_align prof m (S (S fuel)) ap (TUnion u) = Ret 1%N.
Proof. intros Hu. cbn. rewrite Hu. reflexivity. Qed.

Lemma single_variant_align_witness :
  type_align Dev int_char 2 Struct_packed_align (TUnion {| variants := ["int"] |}) = Ret 1%N.
Proof. apply (single_variant_align Dev int_char 0 _ _ "int"). reflexivity. Defined.

(** C10 (counterexample): for [T = [a; b]] with [a] of size 3, align 1
    and [b] of size 2, align 4, the struct [S = [T; T]] has optimized
    size 13 but unpacked size 12 (packed size 10): the optimized layout of
    [T] is [[b; a]], of alignment 4, so [S] pads it to 8 before the second
    copy. *)
Lemma optimized_above_unpacked :
  nested_types !! "S" = Some (TStruct S_TT) /\
  forall prof,
  type_size prof nested_types 20 Struct_optimized_size (TStruct S_TT) = Ret 13%N /\
  type_size prof nested_types 20 Struct_unpacked_size (TStruct S_TT) = Ret 12%N /\
  type_size prof nested_types 20 Struct_packed_size (TStruct S_TT) = Ret 10%N.
Proof. split; [vm_compute; reflexivity|]. intros []; vm_compute; repeat split. Qed.

(** C7: in every registry built by [new] and [add], the size and the
    alignment of every stored type, in every packing mode and profile,
    are computed without running out of fuel once the fuel is large
    enough: the recursion through member names is well founded (a type
    only refers to types registered before it). *)
Theorem layout_terminates prof m k t :
  reachable m -> m !! k = Some t ->
  exists F0, forall F, F0 <= F -> forall sp ap,
    type_size prof m F sp t <> OutOfFuel /\ type_align prof m F ap t <> OutOfFuel.
Proof.
  intros Hm Hk. destruct (reachable_ranked m Hm) as [rank Hr].
  exists (3 * S (rank k)).
  apply (ranked_terminates prof m rank Hr (S (rank k)) k t); [lia | exact Hk].
Qed.

Lemma layout_terminates_witness :
  exists F0, forall F, F0 <= F -> forall sp ap,
    type_size Dev nested_types F sp (TStruct S_TT) <> OutOfFuel /\
    type_align Dev nested_types F ap (TStruct S_TT) <> OutOfFuel.
Proof.
  apply (layout_terminates Dev nested_types "S" (TStruct S_TT) (register_reachable _)).
  vm_compute. reflexivity.
Defined.




(** C10 (amended): with overflow checks, when the
    three sizes of a struct are computed, the packed size is at most the
    optimized and the unpacked size, so the losses of the report do not
    underflow. The optimized size is at most the unpacked size when every
    member is atomic (the declaration order is one of the candidates). *)
Theorem struct_report_losses m fuel s o u p :
  optimized_size Dev m fuel s = Ret o ->
  unpacked_size Dev m fuel s = Ret u ->
  packed_size Dev m fuel s = Ret p ->
  (p <= o)%N /\ (p <= u)%N /\
  struct_report Dev m fuel s = Ret (o, o - p, u, u - p, p, 0)%N /\
  ((forall x, In x (members s) -> exists a, m !! x = Some (TAtomic a)) -> (o <= u)%N).
Proof.
  intros Ho Hu Hp.
  assert (Hpo : (p <= o)%N)
    by exact (packed_le_size m (S (S fuel)) (S fuel) (S fuel) Struct_optimized_size
                (TStruct s) o p ltac:(lia) Ho Hp).
  assert (Hpu : (p <= u)%N)
    by exact (packed_le_size m (S (S fuel)) (S fuel) (S fuel) Struct_unpacked_size
                (TStruct s) u p ltac:(lia) Hu Hp).
  split; [exact Hpo|]. split; [exact Hpu|]. split.
  - unfold struct_report. rewrite Ho, Hu, Hp. cbn [bind]. unfold usize_sub.
    rewrite (proj2 (N.leb_le _ _) Hpo), (proj2 (N.leb_le _ _) Hpu), N.leb_refl.
    cbn [bind]. rewrite N.sub_diag. reflexivity.
  - intros Hatomic.
    destruct fuel as [|[|h]]; [discriminate Ho | discriminate Ho |].
    change (type_size Dev m (S (S (S h))) Struct_optimized_size (TStruct s) = Ret o) in Ho.
    change (type_size Dev m (S (S (S h))) Struct_unpacked_size (TStruct s) = Ret u) in Hu.
    rewrite type_size_unpacked in Hu.
    rewrite type_size_optimized, get_optimal_layout_eq in Ho.
    apply bind_eq_Ret in Ho as (res & Hgol & Ho). inversion Ho; subst.
    apply bind_eq_Ret in Hgol as (P & HP & Hgol).
    apply bind_eq_Ret in Hgol as (best & Hbest & Hgol). inversion Hgol; subst. simpl.
    pose proof (members_permutations_id s P HP) as Hid.
    destruct (keep_min_all_Ret _ _ _ _ Hbest _ Hid) as [c Hc].
    pose proof (proj2 (keep_min_min _ _ _ _ Hbest) _ c Hid Hc) as Hmin.
    enough (c = u) by lia.
    refine (foldM_agree _ _ _ _ _ _ _ Hc Hu).
    intros acc x r r' Hx H1 H2. destruct (Hatomic x Hx) as [a Ha].
    exact (member_place_atomic m _ _ _ _ _ _ _ _ _ a r r' Ha H1 H2).
Qed.

Lemma struct_report_losses_witness :
  struct_report Dev int_char_s 10 s2 = Ret (5, 0, 8, 3, 5, 0)%N.
Proof.
  refine (proj1 (proj2 (proj2 (struct_report_losses int_char_s 10 s2 5 8 5 _ _ _))));
    vm_compute; reflexivity.
Defined.

(* ================================================================== *)
(** ** Further properties of the code *)

(* ------------------------------------------------------------------ *)
(** *** utils/mod.rs *)

Lemma gcd_pos_Ret x y : (0 < x)%N -> (0 < y)%N -> Utils.gcd x y = Ret (N.gcd x y).
Proof.
  intros Hx Hy. unfold Utils.gcd. destruct (x <? y)%N.
  - rewrite gcd_loop_spec by lia. rewrite N.gcd_comm. reflexivity.
  - rewrite gcd_loop_spec by lia. reflexivity.
Qed.

Lemma gcd_zero_Panic x y : (x = 0 \/ y = 0)%N -> Utils.gcd x y = Panic.
Proof.
  intros Hz. unfold Utils.gcd. destruct (x <? y)%N eqn:E.
  - apply N.ltb_lt in E. assert (x = 0%N) as -> by lia. reflexivity.
  - apply N.ltb_ge in E. assert (y = 0%N) as -> by lia. reflexivity.
Qed.

Lemma lcm_pos_Ret prof x y :
  (0 < x)%N -> (0 < y)%N -> (x * y <= usize_max)%N -> Utils.lcm prof x y = Ret (N.lcm x y).
Proof.
  intros Hx Hy Hxy. unfold Utils.lcm, usize_mul. apply N.leb_le in Hxy. rewrite Hxy.
  cbn [bind]. rewrite gcd_pos_Ret by assumption. cbn [bind]. unfold usize_div.
  assert (Hg : N.gcd x y <> 0%N) by (intros H; apply N.gcd_eq_0 in H; lia).
  apply N.eqb_neq in Hg. rewrite Hg. f_equal. unfold N.lcm. rewrite N.Lcm0.lcm_equiv1. reflexivity.
Qed.

Lemma lcm_Dev_pos x y l :
  (0 < x)%N -> (0 < y)%N -> Utils.lcm Dev x y = Ret l -> (0 < l)%N.
Proof.
  intros Hx Hy H. destruct (x * y <=? usize_max)%N eqn:E.
  - apply N.leb_le in E. rewrite lcm_pos_Ret in H by assumption. inversion H; subst.
    assert (N.lcm x y <> 0%N) by (intros Hl; apply N.lcm_eq_0 in Hl; lia). lia.
  - unfold Utils.lcm, usize_mul in H. rewrite E in H. discriminate H.
Qed.

(** [lcm(x, y)] is the least common multiple of [x] and [y] when both
    are positive and [x * y] fits in a usize. It panics when [x] or [y]
    is zero (through [gcd]), and with overflow checks it panics as soon
    as the intermediate product [x * y] overflows, even when the least
    common multiple itself would fit. *)
Theorem lcm_behaviour prof x y :
  ((0 < x)%N -> (0 < y)%N -> (x * y <= usize_max)%N -> Utils.lcm prof x y = Ret (N.lcm x y)) /\
  ((x = 0 \/ y = 0)%N -> Utils.lcm prof x y = Panic) /\
  ((usize_max < x * y)%N -> Utils.lcm Dev x y = Panic).
Proof.
  split; [|split].
  - apply lcm_pos_Ret.
  - intros Hz. unfold Utils.lcm, usize_mul.
    replace (x * y <=? usize_max)%N with true
      by (symmetry; apply N.leb_le; destruct Hz; subst; rewrite ?N.mul_0_l, ?N.mul_0_r;
          apply N.leb_le; vm_compute; reflexivity).
    cbn [bind]. rewrite gcd_zero_Panic by exact Hz. reflexivity.
  - intros Hov. unfold Utils.lcm, usize_mul. apply N.leb_gt in Hov. rewrite Hov. reflexivity.
Qed.

Lemma lcm_behaviour_witness :
  Utils.lcm Dev 4 6 = Ret (N.lcm 4 6) /\ Utils.lcm Release 0 6 = Panic /\
  Utils.lcm Dev (2 ^ 32) (2 ^ 32) = Panic.
Proof.
  split; [|split].
  - apply (proj1 (lcm_behaviour Dev 4 6)); [lia | lia | apply N.leb_le; vm_compute; reflexivity].
  - apply (proj1 (proj2 (lcm_behaviour Release 0 6))). left. reflexivity.
  - apply (proj2 (proj2 (lcm_behaviour Dev (2 ^ 32) (2 ^ 32)))).
    apply N.leb_gt. vm_compute. reflexivity.
Defined.

(** Two orderings of the same elements that agree on all positions but
    the last are equal. *)
Lemma perm_eq_prefix {A} (p xs : list A) k :
  p ≡ₚ xs -> length xs = S k -> (forall j, j < k -> p !! j = xs !! j) -> p = xs.
Proof.
  intros Hp Hlen Hpre.
  assert (Hlp : length p = S k) by (rewrite (Permutation_length Hp); exact Hlen).
  assert (Ht : take k p = take k xs).
  { apply list_eq. intros j. rewrite !lookup_take.
    destruct (decide (j < k)); [apply Hpre; lia | reflexivity]. }
  rewrite <- (take_drop k p), <- (take_drop k xs) in Hp |- *. rewrite Ht in Hp |- *.
  apply Permutation_app_inv_l in Hp. f_equal.
  assert (H1 : length (drop k p) = 1) by (rewrite length_drop; lia).
  assert (H2 : length (drop k xs) = 1) by (rewrite length_drop; lia).
  destruct (drop k p) as [|a [|? ?]]; [discriminate H1 | | discriminate H1].
  destruct (drop k xs) as [|b [|? ?]]; [discriminate H2 | | discriminate H2].
  apply Permutation_length_1 in Hp. subst. reflexivity.
Qed.

(** Every ordering of a list without duplicates that keeps the positions
    below [l] is produced from level [l]. *)
Lemma perm_out_complete {A} f (xs : list A) l r p :
  NoDup xs -> length xs = S (N.to_nat r) -> (l <= r)%N -> N.to_nat (r - l) < f ->
  p ≡ₚ xs -> (forall j, j < N.to_nat l -> p !! j = xs !! j) -> In p (perm_out f xs l r).
Proof.
  revert xs l. induction f as [|f IH]; intros xs l Hnd Hlen Hlr Hf Hp Hpre; [lia|].
  cbn [perm_out]. apply in_or_app. destruct (l =? r)%N eqn:E.
  - apply N.eqb_eq in E. subst l. left. left.
    symmetry. apply (perm_eq_prefix p xs (N.to_nat r)); assumption.
  - apply N.eqb_neq in E. right.
    assert (Hlp : length p = length xs) by (apply Permutation_length; exact Hp).
    destruct (lookup_lt_is_Some_2 p (N.to_nat l) ltac:(lia)) as [a Ha].
    assert (Hax : a ∈ xs).
    { apply list_elem_of_In. apply (Permutation_in _ Hp).
      apply list_elem_of_In. eapply list_elem_of_lookup_2. exact Ha. }
    apply list_elem_of_lookup_1 in Hax as [i Hi].
    assert (Hndp : NoDup p) by (apply (NoDup_Permutation_proper _ _ Hp); exact Hnd).
    assert (Hil : N.to_nat l <= i).
    { destruct (decide (i < N.to_nat l)) as [Hlt|]; [|lia].
      exfalso. assert (Hpi : p !! i = Some a) by (rewrite Hpre by exact Hlt; exact Hi).
      pose proof (NoDup_lookup p i (N.to_nat l) a Hndp Hpi Ha). lia. }
    assert (Hir : i < length xs) by (apply lookup_lt_Some in Hi; exact Hi).
    apply in_flat_map. exists (N.of_nat i). split; [apply range_In; lia|].
    apply IH.
    + apply (NoDup_Permutation_proper _ _ (swapL_Permutation xs _ l)). exact Hnd.
    + rewrite length_swapL. exact Hlen.
    + lia.
    + lia.
    + etrans; [exact Hp|]. symmetry. apply swapL_Permutation.
    + intros j Hj. destruct (decide (j = N.to_nat l)) as [->|Hne].
      * rewrite swapL_lookup_l by lia. rewrite Nat2N.id, Hi. exact Ha.
      * rewrite swapL_lookup_other by lia. apply Hpre. lia.
Qed.


(** [permutations] is complete: on a nonempty list without duplicates,
    every ordering of the list is among the orderings it returns. *)
Theorem permutations_complete {A} prof (xs : list A) P :
  NoDup xs -> 1 <= length xs -> (N.of_nat (length xs) <= usize_max)%N ->
  Utils.permutations prof xs = Ret P -> forall p, p ≡ₚ xs -> In p P.
Proof.
  intros Hnd H1 Hmax H p Hp. rewrite (permutations_perm_out prof xs P H1 Hmax H).
  apply perm_out_complete; [exact Hnd | lia | lia | lia | exact Hp | intros j Hj; lia].
Qed.

Lemma permutations_complete_witness :
  In [2; 1; 3] [[1; 2; 3]; [1; 3; 2]; [2; 1; 3]; [2; 3; 1]; [3; 2; 1]; [3; 1; 2]].
Proof.
  apply (permutations_complete Dev [1; 2; 3]).
  - apply (bool_decide_unpack (NoDup [1; 2; 3])). vm_compute. exact I.
  - simpl. lia.
  - apply N.leb_le. vm_compute. reflexivity.
  - vm_compute. reflexivity.
  - apply perm_swap.
Defined.

(** [permutation_helper] gives [list] back as it found it (each swap is
    undone after the recursive call) and only appends to [buff]: what
    [buff] held before is kept as a prefix. *)
Theorem permutation_helper_restores {A} prof (xs : list A) l buff :
  1 <= length xs -> (N.of_nat (length xs) <= usize_max)%N -> (l <= N.of_nat (length xs))%N ->
  exists out, Utils.permutation_helper prof (S (length xs)) xs l (N.of_nat (length xs) - 1) buff
              = Ret (xs, buff ++ out).
Proof.
  intros H1 Hmax Hl. exists (perm_out (S (length xs)) xs l (N.of_nat (length xs) - 1)).
  apply permutation_helper_spec; lia.
Qed.

Lemma permutation_helper_restores_witness :
  exists out, Utils.permutation_helper Release 4 [7; 8; 9] 1 2 [[0]] = Ret ([7; 8; 9], [[0]] ++ out).
Proof.
  apply (permutation_helper_restores Release [7; 8; 9] 1 [[0]]).
  - simpl. lia.
  - apply N.leb_le. vm_compute. reflexivity.
  - simpl. lia.
Defined.

(* ------------------------------------------------------------------ *)
(** *** The permutation search of [get_optimal_layout] *)

Lemma mapM_Ret_cons_inv {A B} (f : A -> outcome B) l b bs :
  mapM f l = Ret (b :: bs) -> exists a l', l = a :: l' /\ f a = Ret b /\ mapM f l' = Ret bs.
Proof.
  destruct l as [|a l']; simpl; intros H; [discriminate H|].
  apply bind_eq_Ret in H as (b' & Hb & H). apply bind_eq_Ret in H as (bs' & Hbs & H).
  inversion H; subst. eauto.
Qed.

(** Reordering the results of [mapM] is reordering its inputs. *)
Lemma mapM_Permutation_inv {A B} (f : A -> outcome B) l1 l2 :
  l1 ≡ₚ l2 -> forall l, mapM f l = Ret l2 -> exists k, k ≡ₚ l /\ mapM f k = Ret l1.
Proof.
  induction 1 as [|x l1 l2 _ IH|x y l0|l1 l2 l3 _ IH1 _ IH2]; intros l H.
  - destruct l as [|a l]; [exists []; split; reflexivity|].
    simpl in H. apply bind_eq_Ret in H as (b & _ & H). apply bind_eq_Ret in H as (bs & _ & H).
    discriminate H.
  - apply mapM_Ret_cons_inv in H as (a & l' & -> & Ha & Hl').
    destruct (IH l' Hl') as (k & Hk & Hmk). exists (a :: k).
    split; [apply perm_skip, Hk|]. simpl. rewrite Ha, Hmk. reflexivity.
  - apply mapM_Ret_cons_inv in H as (a & l' & -> & Ha & H).
    apply mapM_Ret_cons_inv in H as (b & l'' & -> & Hb & H).
    exists (b :: a :: l''). split; [apply perm_swap|]. simpl. rewrite Ha, Hb, H. reflexivity.
  - destruct (IH2 l H) as (k2 & Hk2 & Hm2). destruct (IH1 k2 Hm2) as (k1 & Hk1 & Hm1).
    exists k1. split; [etrans; eassumption | exact Hm1].
Qed.

(** Every ordering of the members is a candidate of the search. *)
Lemma members_permutations_complete s P :
  members_permutations Dev s = Ret P -> forall tl, tl ≡ₚ members s -> In tl P.
Proof.
  unfold members_permutations. intros H tl Htl.
  apply bind_eq_Ret in H as (I & HI & HP).
  apply permutations_Dev_Ret in HI as [Hn ->]. rewrite !range_length in Hn, HP.
  destruct (mapM_Permutation_inv (index (members s)) _ _ Htl _ (mapM_index_range (members s)))
    as (k & Hk & Hmk).
  assert (HkI : In k (perm_out (S (N.to_nat (N.of_nat (length (members s)) - 0)))
                      (range 0 (N.of_nat (length (members s))))
                      0 (N.of_nat (N.to_nat (N.of_nat (length (members s)) - 0)) - 1))).
  { apply perm_out_complete; [apply range_NoDup | rewrite range_length; lia | lia | lia
                             | exact Hk | intros j Hj; lia]. }
  destruct (mapM_In_Ret _ _ _ _ HP HkI) as (y & Hy & Hmy).
  rewrite Hmk in Hmy. inversion Hmy; subst. exact Hy.
Qed.

(** The first ordering [perm_out] produces is the input itself. *)
Lemma perm_out_head {A} f (xs : list A) l r :
  (l <= r)%N -> N.to_nat r < length xs -> N.to_nat (r - l) < f ->
  exists rest, perm_out f xs l r = xs :: rest.
Proof.
  revert l. induction f as [|f IH]; intros l Hlr Hr Hf; [lia|].
  cbn [perm_out]. destruct (l =? r)%N eqn:E; [eexists; reflexivity|].
  apply N.eqb_neq in E.
  replace (range l (r + 1)) with (l :: range (l + 1) (r + 1)).
  2:{ unfold range. replace (N.to_nat (r + 1 - l)) with (S (N.to_nat (r + 1 - (l + 1)))) by lia.
      cbn [seq map]. f_equal; [lia|]. rewrite <- seq_shift, map_map. apply map_ext. intros k. lia. }
  cbn [flat_map app]. rewrite swapL_same by lia.
  destruct (IH (l + 1)%N ltac:(lia) Hr ltac:(lia)) as [rest ->]. eexists. reflexivity.
Qed.

(** The declaration order is the first candidate of the search. *)
Lemma members_permutations_head s P :
  members_permutations Dev s = Ret P -> exists P', P = members s :: P'.
Proof.
  unfold members_permutations. intros H.
  apply bind_eq_Ret in H as (I & HI & HP).
  apply permutations_Dev_Ret in HI as [Hn ->]. rewrite !range_length in Hn, HP.
  destruct (perm_out_head (S (N.to_nat (N.of_nat (length (members s)) - 0)))
              (range 0 (N.of_nat (length (members s)))) 0
              (N.of_nat (N.to_nat (N.of_nat (length (members s)) - 0)) - 1))
    as [rest Hrest]; [lia | rewrite range_length; lia | lia |].
  rewrite Hrest in HP. simpl in HP.
  apply bind_eq_Ret in HP as (y & Hy & HP). apply bind_eq_Ret in HP as (ys & _ & HP).
  inversion HP; subst. rewrite mapM_index_range in Hy. inversion Hy; subst. eauto.
Qed.


(** The optimized layout is optimal: the size [get_optimal_layout]
    returns is at most the size of every ordering of the struct's
    members, each ordering laid out the way the search lays out its
    candidates (with overflow checks). *)
Theorem optimal_layout_minimal m f s layout size :
  get_optimal_layout Dev m (S f) s = Ret (layout, size) ->
  forall tl c, tl ≡ₚ members s ->
  foldM (member_place Dev m (type_size Dev m f Struct_optimized_size)
                            (type_align Dev m f Struct_optimized_align)) tl 0%N = Ret c ->
  (size <= c)%N.
Proof.
  rewrite get_optimal_layout_eq. intros H tl c Htl Hc.
  apply bind_eq_Ret in H as (P & HP & H).
  apply bind_eq_Ret in H as (best & Hbest & H). inversion H; subst.
  exact (proj2 (keep_min_min _ _ _ _ Hbest) tl c (members_permutations_complete s P HP tl Htl) Hc).
Qed.

Lemma optimal_layout_minimal_witness : (5 <= 8)%N.
Proof.
  refine (optimal_layout_minimal int_char_s 5 s2 ["int"; "char"] 5 _ ["char"; "int"] 8 _ _).
  - vm_compute. reflexivity.
  - reflexivity.
  - vm_compute. reflexivity.
Defined.

(** Ties go to the declaration order: when the members in their declared
    order already reach the optimal size, [get_optimal_layout] returns
    the declared order (a later candidate replaces the current best only
    when it is strictly smaller). *)
Theorem optimal_layout_keeps_declared_order m f s layout size :
  get_optimal_layout Dev m (S f) s = Ret (layout, size) ->
  foldM (member_place Dev m (type_size Dev m f Struct_optimized_size)
                            (type_align Dev m f Struct_optimized_align)) (members s) 0%N = Ret size ->
  (size < usize_max)%N ->
  layout = members s.
Proof.
  rewrite get_optimal_layout_eq. intros H Hdecl Hmax.
  apply bind_eq_Ret in H as (P & HP & H).
  apply bind_eq_Ret in H as ([bs bl] & Hbest & H). simpl in H. inversion H; subst bl bs.
  destruct (members_permutations_head s P HP) as [P' ->].
  simpl in Hbest. apply bind_eq_Ret in Hbest as (acc & Hstep & Hbest).
  unfold keep_min in Hstep. rewrite Hdecl in Hstep. cbn [bind] in Hstep.
  apply N.ltb_lt in Hmax. rewrite Hmax in Hstep. inversion Hstep; subst acc.
  destruct (keep_min_stays _ _ _ _ Hbest) as [E|Hlt]; [congruence | simpl in Hlt; lia].
Qed.

Lemma optimal_layout_keeps_declared_order_witness : ["int"; "char"] = members s1.
Proof.
  apply (optimal_layout_keeps_declared_order int_char_s 5 s1 ["int"; "char"] 5).
  - vm_compute. reflexivity.
  - vm_compute. reflexivity.
  - apply N.ltb_lt. vm_compute. reflexivity.
Defined.

(* ------------------------------------------------------------------ *)
(** *** The registry *)

(** [add] never removes or changes an entry: a registered name keeps its
    type, and registering that name again fails with [TypeRedefinition]
    and leaves the registry as it was, whatever the new type. *)
Theorem add_keeps_entries types name t k v :
  get types k = Some v ->
  get (fst (add types name t)) k = Some v /\
  (k = name -> add types name t = (types, Err TypeRedefinition)).
Proof.
  unfold get, add, check_new_type. intros Hk. split.
  - destruct (types !! name) eqn:Hn; [exact Hk|].
    destruct (decide (k = name)) as [->|Hne]; [congruence|].
    assert (Hins : forall r, fst (match r with Ok => (<[name:=t]> types, Ok)
                                           | Err e => (types, Err e) end) !! k = Some v)
      by (intros []; simpl; [rewrite lookup_insert, decide_False by congruence|]; exact Hk).
    apply Hins.
  - intros ->. rewrite Hk. reflexivity.
Qed.

Lemma add_keeps_entries_witness :
  get (fst (add int_char "int" (atomic 8 8))) "int" = Some (atomic 4 4) /\
  add int_char "int" (atomic 8 8) = (int_char, Err TypeRedefinition).
Proof.
  destruct (add_keeps_entries int_char "int" (atomic 8 8) "int" (atomic 4 4)) as [H1 H2].
  - vm_compute. reflexivity.
  - split; [exact H1 | apply H2; reflexivity].
Defined.


(** Every type stored in a registry built by [add] passed the checks of
    [check_new_type] on its own: an atomic type has nonzero size and
    alignment, a struct or union has at least one member. *)
Theorem registry_valid_types m : reachable m -> forall k t, get m k = Some t -> valid_type t.
Proof. apply reachable_valid. Qed.

Lemma registry_valid_types_witness : valid_type (atomic 1 4).
Proof.
  apply (registry_valid_types int_char (register_reachable _) "char").
  vm_compute. reflexivity.
Defined.

Lemma foldM_pos {A} (step : N -> A -> outcome N) l acc r :
  (forall acc x r, step acc x = Ret r -> (0 < r)%N) -> (0 < acc)%N ->
  foldM step l acc = Ret r -> (0 < r)%N.
Proof.
  intros Hstep. revert acc. induction l as [|x l IH]; intros acc Hacc H; simpl in H.
  - inversion H; subst. exact Hacc.
  - apply bind_eq_Ret in H as (acc' & Hs & H). eapply IH; [eapply Hstep; exact Hs | exact H].
Qed.

Lemma align_pos_Dev m :
  (forall k t, m !! k = Some t -> valid_type t) ->
  forall n f ap t a, f < n -> valid_type t -> type_align Dev m f ap t = Ret a -> (0 < a)%N.
Proof.
  intros Hv n. induction n as [|n IH]; intros f ap t a Hf Ht H; [lia|].
  destruct t as [at0|s|u].
  - apply type_align_atomic_Ret in H. subst a. destruct Ht as [_ Ha]. exact Ha.
  - destruct f as [|[|f]]; [discriminate H | destruct ap; discriminate H |].
    destruct ap; [rewrite type_align_unpacked in H | rewrite type_align_packed in H
                 | rewrite type_align_optimized in H;
                   apply bind_eq_Ret in H as (res & _ & H)];
      apply bind_eq_Ret in H as (first & _ & H); apply bind_eq_Ret in H as (y & Hy & H);
      apply unwrap_Ret in Hy; (eapply IH; [| apply (Hv _ _ Hy) | exact H]); lia.
  - destruct f as [|[|f]]; [discriminate H | discriminate H |].
    rewrite type_align_union in H. apply bind_eq_Ret in H as (last & _ & H).
    refine (foldM_pos _ _ _ _ _ _ H); [|lia].
    intros acc i r Hs. unfold variant_lcm in Hs.
    apply bind_eq_Ret in Hs as (v1 & _ & Hs). apply bind_eq_Ret in Hs as (t1 & Ht1 & Hs).
    apply bind_eq_Ret in Hs as (size1 & Hs1 & Hs). apply bind_eq_Ret in Hs as (i1 & _ & Hs).
    apply bind_eq_Ret in Hs as (v2 & _ & Hs). apply bind_eq_Ret in Hs as (t2 & Ht2 & Hs).
    apply bind_eq_Ret in Hs as (size2 & Hs2 & Hs).
    apply unwrap_Ret in Ht1, Ht2.
    apply (lcm_Dev_pos size1 size2); [| |exact Hs].
    + eapply IH; [| apply (Hv _ _ Ht1) | exact Hs1]. lia.
    + eapply IH; [| apply (Hv _ _ Ht2) | exact Hs2]. lia.
Qed.

(** With overflow checks, every alignment computed for a type stored in
    a registry built by [add] is positive, in every packing mode; so the
    padding step [curr_pos % align] of the layout code never takes a
    remainder by zero. *)
Theorem registry_align_pos m :
  reachable m -> forall k t f ap a, get m k = Some t -> type_align Dev m f ap t = Ret a -> (0 < a)%N.
Proof.
  intros Hm k t f ap a Hk H. pose proof (reachable_valid m Hm) as Hv.
  apply (align_pos_Dev m Hv (S f) f ap t a); [lia | exact (Hv k t Hk) | exact H].
Qed.

Lemma registry_align_pos_witness : (0 < 6)%N.
Proof.
  apply (registry_align_pos union_types (register_reachable _) "u" (TUnion u_abc) 3
           Struct_unpacked_align 6).
  - vm_compute. reflexivity.
  - vm_compute. reflexivity.
Defined.

(* ------------------------------------------------------------------ *)
(** *** [Union::loss] and [TypeManager::display] *)

Lemma union_size_eq prof m f u sp :
  union_size prof m (S f) u sp = foldM (variant_max m (type_size prof m f sp)) (variants u) 0%N.
Proof. reflexivity. Qed.

Lemma union_loss_eq prof m f u sp :
  union_loss prof m (S f) u sp =
  (size <- union_size prof m (S f) u sp ;;
   biggest_packed <- foldM (loss_step m (type_size prof m f sp)
                              (type_size prof m f Struct_packed_size) size) (variants u) 0%N ;;
   usize_sub prof size biggest_packed).
Proof. reflexivity. Qed.

Lemma variant_max_fold_ub m ts l a r :
  foldM (variant_max m ts) l a = Ret r ->
  (a <= r)%N /\ forall x, In x l -> exists ty v, m !! x = Some ty /\ ts ty = Ret v /\ (v <= r)%N.
Proof.
  revert a. induction l as [|x l IH]; intros a H; simpl in H.
  - inversion H; subst. split; [lia | intros _ []].
  - apply bind_eq_Ret in H as (a' & Hs & H). unfold variant_max in Hs.
    apply bind_eq_Ret in Hs as (ty & Hty & Hs). apply bind_eq_Ret in Hs as (v & Hv & Hs).
    inversion Hs; subst a'. apply unwrap_Ret in Hty. destruct (IH _ H) as [Hle Hall].
    split; [lia|]. intros y [<-|Hy]; [|apply Hall; exact Hy].
    exists ty, v. split; [exact Hty|]. split; [exact Hv | lia].
Qed.

Lemma loss_fold m ts ps size l a :
  (forall x, In x l -> exists ty v, m !! x = Some ty /\ ts ty = Ret v) ->
  (forall x, In x l -> exists ty p, m !! x = Some ty /\ ps ty = Ret p) ->
  exists bp, foldM (loss_step m ts ps size) l a = Ret bp /\ (a <= bp)%N /\
    (forall x ty p, In x l -> m !! x = Some ty -> ts ty = Ret size -> ps ty = Ret p -> (p <= bp)%N) /\
    (bp = a \/ exists x ty, In x l /\ m !! x = Some ty /\ ts ty = Ret size /\ ps ty = Ret bp).
Proof.
  revert a. induction l as [|x l IH]; intros a Hts Hps.
  - exists a. split; [reflexivity|]. split; [lia|]. split; [intros _ _ _ []|]. left; reflexivity.
  - destruct (Hts x (or_introl eq_refl)) as (ty & v & Hty & Hv).
    destruct (Hps x (or_introl eq_refl)) as (ty' & p & Hty' & Hp).
    rewrite Hty in Hty'. inversion Hty'; subst ty'.
    assert (Hts' : forall y, In y l -> exists ty v, m !! y = Some ty /\ ts ty = Ret v)
      by (intros y Hy; apply Hts; right; exact Hy).
    assert (Hps' : forall y, In y l -> exists ty p, m !! y = Some ty /\ ps ty = Ret p)
      by (intros y Hy; apply Hps; right; exact Hy).
    set (a' := if (v =? size)%N then N.max a p else a).
    assert (Hstep : loss_step m ts ps size a x = Ret a').
    { unfold loss_step, a'. rewrite Hty. cbn [unwrap bind]. rewrite Hv. cbn [bind].
      destruct (v =? size)%N; simpl; [rewrite Hp|]; reflexivity. }
    destruct (IH a' Hts' Hps') as (bp & Hf & Hle & Hub & Hat).
    exists bp. cbn [foldM]. rewrite Hstep. cbn [bind]. split; [exact Hf|].
    unfold a' in *. destruct (v =? size)%N eqn:E.
    + apply N.eqb_eq in E. subst v. split; [lia|]. split.
      * intros y ty'' p' [<-|Hy] Hy' Hs Hp'; [|eapply Hub; eassumption].
        rewrite Hty in Hy'. inversion Hy'; subst ty''. rewrite Hp in Hp'. inversion Hp'; subst. lia.
      * destruct Hat as [Hbp|(y & ty'' & Hy & Hrest)]; [|right; exists y, ty''; split; [right|]; assumption].
        destruct (N.max_spec a p) as [[_ Hm]|[_ Hm]]; rewrite Hm in Hbp.
        -- right. exists x, ty. subst bp. split; [left; reflexivity | auto].
        -- left. exact Hbp.
    + apply N.eqb_neq in E. split; [exact Hle|]. split.
      * intros y ty'' p' [<-|Hy] Hy' Hs Hp'; [|eapply Hub; eassumption].
        rewrite Hty in Hy'. inversion Hy'; subst ty''. congruence.
      * destruct Hat as [Hbp|(y & ty'' & Hy & Hrest)]; [left; exact Hbp|].
        right. exists y, ty''. split; [right|]; assumption.
Qed.

(** [Union::loss] with overflow checks: when the union's size [size] in
    a packing mode and its packed size can be computed, the loss is
    [size - biggest], where [biggest] is the largest packed size among
    the variants whose size in that mode is [size] (0 if none). The
    final subtraction never underflows: [biggest <= size]. *)
Theorem union_loss_Dev m f u sp size psize :
  union_size Dev m (S f) u sp = Ret size ->
  union_size Dev m (S f) u Struct_packed_size = Ret psize ->
  exists biggest,
    union_loss Dev m (S f) u sp = Ret (size - biggest)%N /\ (biggest <= size)%N /\
    (forall x ty p, In x (variants u) -> get m x = Some ty -> type_size Dev m f sp ty = Ret size ->
       type_size Dev m f Struct_packed_size ty = Ret p -> (p <= biggest)%N) /\
    (biggest = 0%N \/
     exists x ty, In x (variants u) /\ get m x = Some ty /\ type_size Dev m f sp ty = Ret size /\
                  type_size Dev m f Struct_packed_size ty = Ret biggest).
Proof.
  intros Hs Hp. unfold get.
  pose proof Hs as Hs'. rewrite union_size_eq in Hs', Hp.
  destruct (variant_max_fold_ub _ _ _ _ _ Hs') as [_ Hall].
  destruct (variant_max_fold_ub _ _ _ _ _ Hp) as [_ Hallp].
  destruct (loss_fold m (type_size Dev m f sp) (type_size Dev m f Struct_packed_size) size
              (variants u) 0%N) as (bp & Hf & _ & Hub & Hat).
  { intros x Hx. destruct (Hall x Hx) as (ty & v & Hty & Hv & _). eauto. }
  { intros x Hx. destruct (Hallp x Hx) as (ty & v & Hty & Hv & _). eauto. }
  assert (Hle : (bp <= size)%N).
  { destruct Hat as [->|(x & ty & _ & _ & H1 & H2)]; [lia|].
    exact (packed_le_size m (S f) f f sp ty size bp ltac:(lia) H1 H2). }
  exists bp. split; [|split; [exact Hle | split; [exact Hub | exact Hat]]].
  rewrite union_loss_eq, Hs. cbn [bind]. rewrite Hf. cbn [bind].
  unfold usize_sub. apply N.leb_le in Hle. rewrite Hle. reflexivity.
Qed.

Lemma union_loss_Dev_witness :
  exists biggest, union_loss Dev union_types 3 u_abc Struct_unpacked_size = Ret (1 - biggest)%N /\
    (biggest <= 1)%N /\
    (forall x ty p, In x (variants u_abc) -> get union_types x = Some ty ->
       type_size Dev union_types 2 Struct_unpacked_size ty = Ret 1%N ->
       type_size Dev union_types 2 Struct_packed_size ty = Ret p -> (p <= biggest)%N) /\
    (biggest = 0%N \/
     exists x ty, In x (variants u_abc) /\ get union_types x = Some ty /\
       type_size Dev union_types 2 Struct_unpacked_size ty = Ret 1%N /\
       type_size Dev union_types 2 Struct_packed_size ty = Ret biggest).
Proof.
  apply (union_loss_Dev union_types 2 u_abc Struct_unpacked_size 1 1); vm_compute; reflexivity.
Defined.

(* ------------------------------------------------------------------ *)
(** *** driver/mod.rs and main.rs *)

Import Driver.

Lemma add_Err types name t m' e : add types name t = (m', Err e) -> m' = types.
Proof. unfold add. destruct (check_new_type types name t); intros H; inversion H; reflexivity. Qed.

Lemma println_Ret io p p' : println io p = Ret p' -> p' = p.
Proof. unfold println. destruct (print_ok io); intros H; inversion H; reflexivity. Qed.

Lemma run_add_manager io p name t p' :
  run_add io p name t = Ret p' ->
  manager p' = manager p \/ add (manager p) name t = (manager p', Ok).
Proof.
  unfold run_add. destruct (add (manager p) name t) as [m' [|e]] eqn:E; intros H.
  - inversion H; subst. right. reflexivity.
  - apply println_Ret in H. subst p'. left. exact (add_Err _ _ _ _ _ E).
Qed.

(** A non-panicking iteration either keeps the registry or replaces it
    by the result of a successful [add]. *)
Lemma run_manager lower prof fuel p io p' :
  run lower prof fuel p io = Ret p' ->
  manager p' = manager p \/ exists name t, add (manager p) name t = (manager p', Ok).
Proof.
  unfold run. destruct (prompt_ok io); simpl; [|discriminate].
  destruct (read io) as [line|]; [|discriminate].
  destruct (parse lower line) as [a|e].
  - destruct a as [s|name ms|name vs|name r al|]; intros H.
    + apply bind_eq_Ret in H as (_ & _ & H). apply println_Ret in H. subst. left. reflexivity.
    + destruct (run_add_manager _ _ _ _ _ H); [left; assumption | right; eauto].
    + destruct (run_add_manager _ _ _ _ _ H); [left; assumption | right; eauto].
    + destruct (run_add_manager _ _ _ _ _ H); [left; assumption | right; eauto].
    + inversion H; subst. left. reflexivity.
  - intros H. apply println_Ret in H. subst. left. reflexivity.
Qed.

Lemma main_loop_reachable_from lower prof fuel lines :
  forall p p', reachable (manager p) -> main_loop lower prof fuel p lines = Ret p' ->
  reachable (manager p').
Proof.
  induction lines as [|line lines IH]; intros p p' Hp H; simpl in H.
  - inversion H; subst. exact Hp.
  - destruct (running p); [|inversion H; subst; exact Hp].
    apply bind_eq_Ret in H as (p1 & H1 & H). apply (IH p1); [|exact H].
    destruct (run_manager _ _ _ _ _ _ H1) as [->|(name & t & Hadd)]; [exact Hp|].
    replace (manager p1) with (fst (add (manager p) name t)) by (rewrite Hadd; reflexivity).
    apply reachable_add. exact Hp.
Qed.

(** Every registry the program holds, after [Program::new] and any
    sequence of iterations of the loop of [main] that does not panic, is
    reachable: it was built by successful [add]s from the empty registry,
    so the properties proved for such registries hold for it. *)
Theorem main_loop_reachable lower prof fuel ios p :
  main_loop lower prof fuel new_program ios = Ret p -> reachable (manager p).
Proof. apply main_loop_reachable_from. exact reachable_new. Qed.

Lemma main_loop_reachable_witness :
  exists p, main_loop (fun s => s) Dev 10 new_program
              (map (fun l => {| prompt_ok := true; read := Some l; print_ok := true |})
                 [["atomico"; "int"; "4"; "4"]; ["struct"; "s"; "int"; "long"];
                  ["struct"; "s"; "int"; "int"]; ["describir"; "s"]; ["salir"];
                  ["atomico"; "x"; "1"; "1"]]) = Ret p /\
            reachable (manager p).
Proof.
  eexists. split; [vm_compute; reflexivity|].
  apply (main_loop_reachable (fun s => s) Dev 10
           (map (fun l => {| prompt_ok := true; read := Some l; print_ok := true |})
              [["atomico"; "int"; "4"; "4"]; ["struct"; "s"; "int"; "long"];
               ["struct"; "s"; "int"; "int"]; ["describir"; "s"]; ["salir"];
               ["atomico"; "x"; "1"; "1"]])).
  vm_compute. reflexivity.
Defined.
